(** * SP0256 allophone simulator: a shallow embedding of [sp0256.py]

    The development follows the Python module function by function.

    - Python [str] values are modelled by [string]; a character is a code
      point below 256 ([ascii]), classified as Python 3 classifies it
      ([str.isdigit], [str.lower], and [\w], [\s] of the [re] module).
    - Python [dict] values are insertion-ordered association lists
      ([PyDict]); the iteration order of the two catalogs matters to
      [find_closest_match].
    - Code that can raise returns a [result]; [write_wav] and [main]
      thread the file system explicitly.
    - [cmudict.dict()], the directory of WAV files and the working
      directory are inputs of the program and are parameters here. *)

From Stdlib Require Import String Ascii List Bool Arith ZArith Lia.
From Equations Require Import Equations.
Import ListNotations.

Open Scope string_scope.
Open Scope list_scope.
Open Scope nat_scope.

(** ** Exceptions and results *)

Inductive exn : Type :=
| IndexError
| KeyError
| TypeError
| ValueError (msg : string)
| FileNotFoundError.

Inductive result (A : Type) : Type :=
| Ok (a : A)
| Raise (e : exn).
Arguments Ok {A} a.
Arguments Raise {A} e.

Definition bind {A B} (r : result A) (k : A -> result B) : result B :=
  match r with
  | Ok a => k a
  | Raise e => Raise e
  end.

Notation "x <- e ;; k" := (bind e (fun x => k))
  (at level 61, e at next level, right associativity).

(** [xs[i]] for a non-negative index. *)
Definition index {A} (xs : list A) (i : nat) : result A :=
  match nth_error xs i with
  | Some x => Ok x
  | None => Raise IndexError
  end.

(** Truth value of a list: [if xs:]. *)
Definition truthy {A} (xs : list A) : bool :=
  match xs with
  | [] => false
  | _ :: _ => true
  end.

(** ** Python dictionaries keyed by strings *)

Module PyDict.

Definition dict (V : Type) : Type := list (string * V).

Fixpoint get {V} (d : dict V) (k : string) : option V :=
  match d with
  | [] => None
  | (k', v) :: d' => if (k' =? k)%string then Some v else get d' k
  end.

(** [k in d] *)
Definition contains {V} (d : dict V) (k : string) : bool :=
  match get d k with
  | Some _ => true
  | None => false
  end.

(** [d[k]] *)
Definition getitem {V} (d : dict V) (k : string) : result V :=
  match get d k with
  | Some v => Ok v
  | None => Raise KeyError
  end.

(** [d.get(k, default)] *)
Definition get_default {V} (d : dict V) (k : string) (default : V) : V :=
  match get d k with
  | Some v => v
  | None => default
  end.

(** [d[k] = v]: an existing key keeps its place, a new one goes last. *)
Fixpoint setitem {V} (d : dict V) (k : string) (v : V) : dict V :=
  match d with
  | [] => [(k, v)]
  | (k', v') :: d' =>
      if (k' =? k)%string then (k, v) :: d' else (k', v') :: setitem d' k v
  end.

(** [for k in d], in insertion order. *)
Definition keys {V} (d : dict V) : list string := map fst d.

End PyDict.

Import PyDict.

(** ** Characters *)

Definition ord (c : ascii) : nat := nat_of_ascii c.

Definition in_range (lo hi : nat) (c : ascii) : bool :=
  (lo <=? ord c) && (ord c <=? hi).

(** [c.isdigit()]: the decimal digits and the superscripts 2, 3 and 1. *)
Definition isdigit (c : ascii) : bool :=
  in_range 48 57 c || in_range 178 179 c || (ord c =? 185).

(** [\w]: alphanumeric (letters, digits and other numerics) or underscore. *)
Definition is_word (c : ascii) : bool :=
  in_range 48 57 c || in_range 65 90 c || (ord c =? 95) || in_range 97 122 c
  || (ord c =? 170) || in_range 178 179 c || (ord c =? 181)
  || in_range 185 186 c || in_range 188 190 c
  || in_range 192 214 c || in_range 216 246 c || in_range 248 255 c.

(** [\s]: Unicode white space. *)
Definition is_space (c : ascii) : bool :=
  in_range 9 13 c || in_range 28 32 c || (ord c =? 133) || (ord c =? 160).

(** One character of [str.lower()]; below 256 every character lowers to
    one character and without regard to its neighbours. *)
Definition lower_char (c : ascii) : ascii :=
  if in_range 65 90 c || in_range 192 214 c || in_range 216 222 c
  then ascii_of_nat (ord c + 32)
  else c.

Definition is_ascii_upper (c : ascii) : bool := in_range 65 90 c.

(** ** Strings *)

(** [list(s)] and [''.join(cs)] *)
Definition chars (s : string) : list ascii := list_ascii_of_string s.
Definition join (cs : list ascii) : string := string_of_list_ascii cs.

(** [s.lower()] *)
Definition lower (s : string) : string := join (map lower_char (chars s)).

(** ** The catalogs *)

(** All allophones which have multiple WAV files *)
Definition numbered : dict (list string) :=
  [ ("BB", ["BB1.wav"; "BB2.wav"]);
    ("DD", ["DD1.wav"; "DD2.wav"]);
    ("DH", ["DH1.wav"; "DH2.wav"]);
    ("ER", ["ER1.wav"; "ER2.wav"]);
    ("GG", ["GG2.wav"; "GG3.wav"]);
    ("HH", ["HH1.wav"; "HH2.wav"]);
    ("KK", ["KK1.wav"; "KK2.wav"; "KK3.wav"]);
    ("NN", ["NN1.wav"; "NN2.wav"]);
    ("RR", ["RR1.wav"; "RR2.wav"]);
    ("TT", ["TT1.wav"; "TT2.wav"]);
    ("UW", ["UW1.wav"; "UW2.wav"]);
    ("YY", ["YY1.wav"; "YY2.wav"]) ].

(** All allophones with single WAV files *)
Definition unnumbered : dict (list string) :=
  [ ("AA", ["AA.wav"]);
    ("AE", ["AE.wav"]);
    ("AO", ["AO.wav"]);
    ("AR", ["AR.wav"]);
    ("AW", ["AW.wav"]);
    ("AX", ["AX.wav"]);
    ("AY", ["AY.wav"]);
    ("CH", ["CH.wav"]);
    ("EH", ["EH.wav"]);
    ("EL", ["EL.wav"]);
    ("EY", ["EY.wav"]);
    ("FF", ["FF.wav"]);
    ("GOT", ["GOT.wav"]);
    ("IH", ["IH.wav"]);
    ("IY", ["IY.wav"]);
    ("JH", ["JH.wav"]);
    ("LL", ["LL.wav"]);
    ("MM", ["MM.wav"]);
    ("NG", ["NG.wav"]);
    ("OR", ["OR.wav"]);
    ("OW", ["OW.wav"]);
    ("OY", ["OY.wav"]);
    ("PP", ["PP.wav"]);
    ("SH", ["SH.wav"]);
    ("SS", ["SS.wav"]);
    ("TH", ["TH.wav"]);
    ("UH", ["UH.wav"]);
    ("VV", ["VV.wav"]);
    ("WH", ["WH.wav"]);
    ("WW", ["WW.wav"]);
    ("XR", ["XR.wav"]);
    ("YR", ["YR.wav"]);
    ("ZH", ["ZH.wav"]);
    ("ZZ", ["ZZ.wav"]) ].

(** ** The resolver *)

(** [[allophone, digits_removed]] if a digit is found, [[]] otherwise. *)
Definition allophone_contains_digit (allophone : string) : list string :=
  let digits_removed :=
    join (filter (fun char => negb (isdigit char)) (chars allophone)) in
  if negb (digits_removed =? allophone)%string
  then [allophone; digits_removed]
  else [].

(** One [for] loop of [find_closest_match] over the keys still to visit:
    [Some files] when the loop returns, [None] when it runs to its end. *)
Fixpoint closest_loop (catalog : dict (list string)) (todo : list string)
    (input_str : string) : result (option (list string)) :=
  match todo with
  | [] => Ok None
  | allophone :: todo' =>
      if String.length input_str =? 1 then
        let double_string := (input_str ++ input_str)%string in
        if (allophone =? double_string)%string then
          files <- getitem catalog double_string ;; Ok (Some files)
        else closest_loop catalog todo' input_str
      else if 1 <? String.length input_str then
        let single_letters_catalog := chars allophone in
        let single_letters_input := chars input_str in
        a <- index single_letters_input 0 ;;
        b <- index single_letters_catalog 0 ;;
        if Ascii.eqb a b then
          files <- getitem catalog allophone ;; Ok (Some files)
        else closest_loop catalog todo' input_str
      else closest_loop catalog todo' input_str
  end.

Definition find_closest_match (input_str : string) : result (list string) :=
  found <- closest_loop numbered (keys numbered) input_str ;;
  match found with
  | Some files => Ok files
  | None =>
      found' <- closest_loop unnumbered (keys unnumbered) input_str ;;
      match found' with
      | Some files => Ok files
      | None => Ok []
      end
  end.

Definition lookup_allophone (allophone : string) : result string :=
  if (allophone =? "SPACE")%string then Ok "SPACE.wav"
  else if (allophone =? "PERIOD")%string then Ok "PERIOD.wav"
  else if (allophone =? "COMMA")%string then Ok "COMMA.wav"
  else if contains numbered allophone then
    files <- getitem numbered allophone ;; index files 0
  else if contains unnumbered allophone then
    files <- getitem unnumbered allophone ;; index files 0
  else
    let allophone_has_digit := allophone_contains_digit allophone in
    if truthy allophone_has_digit then
      modified_allophone <- index allophone_has_digit 1 ;;
      if contains numbered modified_allophone then
        files <- getitem numbered modified_allophone ;; index files 0
      else if contains unnumbered modified_allophone then
        files <- getitem unnumbered modified_allophone ;; index files 0
      else
        match_ <- find_closest_match allophone ;;
        if truthy match_ then index match_ 0 else Ok ""
    else
      match_ <- find_closest_match allophone ;;
      if truthy match_ then index match_ 0 else Ok "".

(** ** Regular expressions

    The three patterns of the program never match the empty string, so a
    pattern is given the character at the scan position and the text
    after it, and answers how many characters of that text the match
    takes beyond the first one, or [None] when nothing matches there. *)

Definition pattern : Type := ascii -> string -> option nat.

Fixpoint run_length (f : ascii -> bool) (s : string) : nat :=
  match s with
  | String c rest => if f c then S (run_length f rest) else 0
  | EmptyString => 0
  end.

(** A character class, a greedy [+] of a class, and [|]. *)
Definition one (f : ascii -> bool) : pattern :=
  fun c _ => if f c then Some 0 else None.

Definition many1 (f : ascii -> bool) : pattern :=
  fun c rest => if f c then Some (run_length f rest) else None.

Definition alt (p q : pattern) : pattern :=
  fun c rest =>
    match p c rest with
    | Some n => Some n
    | None => q c rest
    end.

Fixpoint take (n : nat) (s : string) : string :=
  match n, s with
  | S n', String c rest => String c (take n' rest)
  | _, _ => EmptyString
  end.

Fixpoint drop (n : nat) (s : string) : string :=
  match n, s with
  | S n', String c rest => drop n' rest
  | _, _ => s
  end.

(** [re.findall(p, s)]: the matches from left to right; the scan resumes
    after a match and moves one character on where nothing matches. *)
Equations? findall (p : pattern) (s : string) : list string
  by wf (String.length s) lt :=
  findall p EmptyString := [];
  findall p (String c rest) with p c rest := {
    | Some n := String c (take n rest) :: findall p (drop n rest);
    | None := findall p rest }.
Proof.
  clear. revert n.
  induction rest as [|a r IH]; intros [|n]; simpl; try lia.
  specialize (IH n). lia.
Qed.

(** [r'\w+'] *)
Definition re_words : pattern := many1 is_word.

(** [r'\w+|\s|[^\w\s]'] *)
Definition re_tokens : pattern :=
  alt (many1 is_word)
      (alt (one is_space)
           (one (fun c => negb (is_word c) && negb (is_space c)))).

(** ** Text to labels *)

Definition parse_input (input_text : string) : list string :=
  findall re_tokens input_text.

(** The [for word in parsed_input] body of [process_punctuation];
    [word in allophone_dict] and [allophone_dict[word]] are one lookup. *)
Definition process_token (allophone_dict : dict (list string))
    (c : list string) (word : string) : list string :=
  match get allophone_dict word with
  | Some labels => c ++ labels
  | None =>
      if (word =? ",")%string then c ++ ["COMMA"]
      else if (word =? " ")%string then c ++ ["SPACE"]
      else if (word =? ".")%string then c ++ ["PERIOD"]
      else c
  end.

Definition process_punctuation (parsed_input : list string)
    (allophone_dict : dict (list string)) : list string :=
  fold_left (process_token allophone_dict) parsed_input [].

Section Pronunciation.

(** [cmudict.dict()]: word to its pronunciations. *)
Variable cmu_dict : dict (list (list string)).

(** The [for word in words] body of [text_to_allophones]. *)
Definition add_word (allophones_dict : dict (list string)) (word : string)
    : dict (list string) :=
  let pronunciations := get_default cmu_dict word [] in
  match pronunciations with
  | pronunciation :: _ => setitem allophones_dict word pronunciation
  | [] => setitem allophones_dict word [word]
  end.

Definition text_to_allophones (text : string) : dict (list string) :=
  let words := findall re_words (lower text) in
  fold_left add_word words [].

(** The label sequence that the loop stores for a word. *)
Definition stored_for (word : string) : list string :=
  match get_default cmu_dict word [] with
  | pronunciation :: _ => pronunciation
  | [] => [word]
  end.

End Pronunciation.

(** ** Fragments *)

Section Flags.

Variables IGNORE_SPACES IGNORE_PERIODS IGNORE_COMMAS : bool.

Definition keep_unless (flag : bool) (name : string) (items : list string)
    : list string :=
  if flag then filter (fun item => negb (item =? name)%string) items
  else items.

Definition prune_punctuation (allophones : list string) : list string :=
  let result := allophones in
  let result := keep_unless IGNORE_SPACES "SPACE.wav" result in
  let result := keep_unless IGNORE_PERIODS "PERIOD.wav" result in
  let result := keep_unless IGNORE_COMMAS "COMMA.wav" result in
  result.

End Flags.

(** The [for article in processed_input] loop of [main]. *)
Fixpoint resolve (processed_input : list string) (result_ : list string)
    : result (list string) :=
  match processed_input with
  | [] => Ok result_
  | article :: rest =>
      wav_filename <- lookup_allophone article ;;
      if negb (wav_filename =? "")%string
      then resolve rest (result_ ++ [wav_filename])
      else resolve rest result_
  end.

(** ** WAV files

    A fragment is a mono file of 16-bit samples; a file that is not a WAV
    file at all is [NotWav]. *)

Inductive file : Type :=
| Wav (sample_rate : Z) (audio_data : list Z)
| NotWav.

Definition filesystem : Type := dict file.

(** The cast of [np.array(_, dtype=np.int16)], the identity on 16-bit
    samples. *)
Definition int16 (x : Z) : Z := ((x + 32768) mod 65536 - 32768)%Z.

Definition starts_with_sep (s : string) : bool :=
  match s with
  | String c _ => Ascii.eqb c "/"
  | EmptyString => false
  end.

Fixpoint ends_with_sep (s : string) : bool :=
  match s with
  | EmptyString => false
  | String c EmptyString => Ascii.eqb c "/"
  | String _ rest => ends_with_sep rest
  end.

(** [os.path.join(a, b)] *)
Definition os_path_join (a b : string) : string :=
  if starts_with_sep b then b
  else if (a =? "")%string || ends_with_sep a then (a ++ b)%string
  else (a ++ "/" ++ b)%string.

(** [wavfile.read(path)] *)
Definition wavfile_read (fs : filesystem) (path : string) : result (Z * list Z) :=
  match get fs path with
  | Some (Wav sample_rate audio_data) => Ok (sample_rate, audio_data)
  | Some NotWav => Raise (ValueError "File format not understood.")
  | None => Raise FileNotFoundError
  end.

(** [wavfile.write(path, rate, data)]: the file is opened for writing
    before the header is computed, and the header needs a number for the
    rate. *)
Definition wavfile_write (fs : filesystem) (path : string)
    (rate : option Z) (data : list Z) : result unit * filesystem :=
  match rate with
  | Some r => (Ok tt, setitem fs path (Wav r data))
  | None => (Raise TypeError, setitem fs path NotWav)
  end.

Definition OUTPUT_FILE : string := "output.wav".

Section Files.

(** [os.getcwd()] *)
Variable cwd : string.

Definition INPUT_WAV_PATH : string := (os_path_join cwd "modified_wav" ++ "/")%string.
Definition OUTPUT_WAV_PATH : string := cwd.

(** The [for wav_file in wav_files] loop of [write_wav], without what
    it prints. *)
Fixpoint read_fragments (fs : filesystem) (wav_files : list string)
    (sample_rate : option Z) (combined_audio : list Z)
    : result (option Z * list Z) :=
  match wav_files with
  | [] => Ok (sample_rate, combined_audio)
  | wav_file :: rest =>
      read <- wavfile_read fs (os_path_join INPUT_WAV_PATH wav_file) ;;
      let '(current_sample_rate, audio_data) := read in
      match sample_rate with
      | None =>
          read_fragments fs rest (Some current_sample_rate)
            (combined_audio ++ audio_data)
      | Some rate =>
          if negb (rate =? current_sample_rate)%Z then
            Raise (ValueError "All WAV files must have the same sample rate.")
          else
            read_fragments fs rest (Some rate) (combined_audio ++ audio_data)
      end
  end.

Definition write_wav (fs : filesystem) (wav_files : list string)
    : result string * filesystem :=
  match read_fragments fs wav_files None [] with
  | Raise e => (Raise e, fs)
  | Ok (sample_rate, combined_audio) =>
      match wavfile_write fs (os_path_join OUTPUT_WAV_PATH OUTPUT_FILE)
              sample_rate (map int16 combined_audio) with
      | (Ok _, fs') => (Ok OUTPUT_FILE, fs')
      | (Raise e, fs') => (Raise e, fs')
      end
  end.

Variable cmu_dict : dict (list (list string)).
Variables IGNORE_SPACES IGNORE_PERIODS IGNORE_COMMAS : bool.

(** [main] up to the fragment list handed to [write_wav]. *)
Definition main_fragments (input_string : string) : result (list string) :=
  let parsed_input := parse_input input_string in
  let allophone_dict := text_to_allophones cmu_dict input_string in
  let processed_input := process_punctuation parsed_input allophone_dict in
  result_ <- resolve processed_input [] ;;
  if IGNORE_SPACES || IGNORE_PERIODS || IGNORE_COMMAS
  then Ok (prune_punctuation IGNORE_SPACES IGNORE_PERIODS IGNORE_COMMAS result_)
  else Ok result_.

(** [main] on the line read from the prompt; what it prints is left
    out. *)
Definition main (fs : filesystem) (input_string : string)
    : result string * filesystem :=
  match main_fragments input_string with
  | Raise e => (Raise e, fs)
  | Ok result_ => write_wav fs result_
  end.

End Files.

(** ** The resolver's rules as the specification words them *)

Definition is_sentinel (label : string) : bool :=
  (label =? "SPACE")%string || (label =? "PERIOD")%string
  || (label =? "COMMA")%string.

Definition contains_digit (label : string) : bool :=
  existsb isdigit (chars label).

Definition strip_digits (label : string) : string :=
  join (filter (fun c => negb (isdigit c)) (chars label)).

(** A one-character input matches the key that doubles it; a longer input
    matches a key with the same first character. *)
Definition key_matches (input key : string) : bool :=
  match input with
  | EmptyString => false
  | String a EmptyString => (key =? String a (String a EmptyString))%string
  | String a (String _ _) =>
      match key with
      | String b _ => Ascii.eqb a b
      | EmptyString => false
      end
  end.

(** The first matching entry, multi-variant catalog first. *)
Definition closest_entry (input : string) : option (string * list string) :=
  find (fun entry => key_matches input (fst entry)) (numbered ++ unnumbered).

(** A label that none of the exact and digit-stripping rules resolves. *)
Definition reaches_fallback (label : string) : bool :=
  negb (is_sentinel label)
  && negb (contains numbered label) && negb (contains unnumbered label)
  && negb (contains numbered (strip_digits label))
  && negb (contains unnumbered (strip_digits label)).

Definition sentinel_fragments : list string :=
  ["SPACE.wav"; "PERIOD.wav"; "COMMA.wav"].

(** The fragments listed after the first one of some catalog entry. *)
Definition later_variants : list string :=
  flat_map (fun entry => tl (snd entry)) (numbered ++ unnumbered).

(** ** The expander's rule as the specification words it

    [looked_up] are the words that were looked up and [mapping] is the
    word-to-label-sequence mapping. *)

Definition expand_token (looked_up : list string)
    (mapping : dict (list string)) (token : string) : list string :=
  if existsb (String.eqb token) looked_up then get_default mapping token []
  else if (token =? " ")%string then ["SPACE"]
  else if (token =? ".")%string then ["PERIOD"]
  else if (token =? ",")%string then ["COMMA"]
  else [].

Definition has_ascii_upper (token : string) : bool :=
  existsb is_ascii_upper (chars token).

(** ** The assembler's vocabulary *)

(** The sample rate of a fragment, when the fragment can be read. *)
Definition rate_of (cwd : string) (fs : filesystem) (wav_file : string)
    : option Z :=
  match wavfile_read fs (os_path_join (INPUT_WAV_PATH cwd) wav_file) with
  | Ok (sample_rate, _) => Some sample_rate
  | Raise _ => None
  end.

Definition is_int16 (x : Z) : Prop := (-32768 <= x <= 32767)%Z.

Definition rate_error : exn :=
  ValueError "All WAV files must have the same sample rate.".

(** What the resolver relies on: keys are not empty, no entry is hidden
    by an earlier one with the same key, and every entry lists a file. *)
Definition catalog_ok (d todo : dict (list string)) : Prop :=
  Forall (fun entry =>
            fst entry <> "" /\ truthy (snd entry) = true
            /\ get d (fst entry) = Some (snd entry)) todo.

(** The three kinds of token. *)
Definition is_token (t : string) : Prop :=
  (t <> "" /\ forallb is_word (chars t) = true)
  \/ (exists c, t = String c EmptyString /\ is_space c = true)
  \/ (exists c, t = String c EmptyString
                /\ is_word c = false /\ is_space c = false).

(** ** Vocabulary of the further properties *)

(** [s[0]], when there is one. *)
Definition initial (s : string) : option ascii :=
  match s with
  | String c _ => Some c
  | EmptyString => None
  end.

(** [c + c] for a one-character string [c]. *)
Definition double (c : ascii) : string := String c (String c EmptyString).

(** A catalog entry whose key starts with an ASCII upper-case letter and
    holds no digit, and whose first file starts with the same letter. *)
Definition entry_checks (entry : string * list string) : bool :=
  match fst entry, snd entry with
  | String b _, String f _ :: _ =>
      is_ascii_upper b && negb (isdigit b) && Ascii.eqb b f
  | _, _ => false
  end
  && negb (contains_digit (fst entry)).

(** A token made of word characters. *)
Definition word_token (t : string) : bool :=
  negb (t =? "")%string && forallb is_word (chars t).

(** The file name that [main] gets for a label, [""] for none. *)
Definition resolved (label : string) : string :=
  match lookup_allophone label with
  | Ok wav_filename => wav_filename
  | Raise _ => ""
  end.

(** A fragment that [prune_punctuation] removes under the given flags. *)
Definition ignored (spaces periods commas : bool) (item : string) : bool :=
  (spaces && (item =? "SPACE.wav")%string)
  || (periods && (item =? "PERIOD.wav")%string)
  || (commas && (item =? "COMMA.wav")%string).

(** The words of a list in the order in which each one comes first,
    leaving out those already [seen]. *)
Fixpoint first_seen (seen words : list string) : list string :=
  match words with
  | [] => []
  | w :: ws =>
      if existsb (String.eqb w) seen then first_seen seen ws
      else w :: first_seen (seen ++ [w]) ws
  end.

(** * Properties *)

(** ** The examples of the docstrings and of the specification *)

Example lookup_Z : lookup_allophone "Z" = Ok "ZZ.wav".
Proof. reflexivity. Qed.

Example lookup_D : lookup_allophone "D" = Ok "DD1.wav".
Proof. reflexivity. Qed.

Example lookup_AY1 : lookup_allophone "AY1" = Ok "AY.wav".
Proof. reflexivity. Qed.

Example lookup_SPACE1 : lookup_allophone "SPACE1" = Ok "SH.wav".
Proof. reflexivity. Qed.

Example lookup_hi : lookup_allophone "hi" = Ok "".
Proof. reflexivity. Qed.

Example parse_input_doc :
  parse_input "hello there, alien."
  = ["hello"; " "; "there"; ","; " "; "alien"; "."].
Proof. reflexivity. Qed.

Example text_to_allophones_doc :
  text_to_allophones
    [("hello", [["HH"; "AH0"; "L"; "OW1"]]); ("there", [["DH"; "EH1"; "R"]])]
    "Hello there"
  = [("hello", ["HH"; "AH0"; "L"; "OW1"]); ("there", ["DH"; "EH1"; "R"])].
Proof. reflexivity. Qed.

Example process_punctuation_doc :
  process_punctuation
    ["this"; ","; " "; "is"; " "; "a"; " "; "test"; "."]
    [("this", ["DH"; "IH1"; "S"]); ("is", ["IH1"; "Z"]); ("a", ["AH0"]);
     ("test", ["T"; "EH1"; "S"; "T"])]
  = ["DH"; "IH1"; "S"; "COMMA"; "SPACE"; "IH1"; "Z"; "SPACE"; "AH0"; "SPACE";
     "T"; "EH1"; "S"; "T"; "PERIOD"].
Proof. reflexivity. Qed.

(** ** Results, strings and dictionaries *)

Lemma join_chars (s : string) : join (chars s) = s.
Proof. apply string_of_list_ascii_of_string. Qed.

Lemma chars_join (cs : list ascii) : chars (join cs) = cs.
Proof. apply list_ascii_of_string_of_list_ascii. Qed.

Lemma filter_fixed {A} (f : A -> bool) (l : list A) :
  filter f l = l <-> forallb f l = true.
Proof.
  induction l as [|a l IH]; simpl.
  - tauto.
  - destruct (f a) eqn:Fa; simpl.
    + rewrite <- IH. split; [intros E; now injection E | intros ->; reflexivity].
    + split; [|discriminate].
      intros E. assert (L : length (filter f l) = S (length l)) by now rewrite E.
      pose proof (filter_length_le f l). lia.
Qed.

Lemma contains_true {V} (d : dict V) (k : string) :
  contains d k = true <-> exists v, get d k = Some v.
Proof.
  unfold contains. destruct (get d k) as [v|].
  - split; [eauto | reflexivity].
  - split; [discriminate | intros [v E]; discriminate].
Qed.

Lemma contains_false {V} (d : dict V) (k : string) :
  contains d k = false <-> get d k = None.
Proof.
  unfold contains. destruct (get d k); split; congruence.
Qed.

Lemma get_In {V} (d : dict V) (k : string) (v : V) :
  get d k = Some v -> In (k, v) d.
Proof.
  induction d as [|[k' v'] d IH]; simpl; [discriminate|].
  destruct (String.eqb_spec k' k) as [->|_].
  - intros [= ->]. now left.
  - intros E. right. auto.
Qed.

Lemma find_app {A} (f : A -> bool) (l1 l2 : list A) :
  find f (l1 ++ l2) =
  match find f l1 with
  | Some x => Some x
  | None => find f l2
  end.
Proof.
  induction l1 as [|a l1 IH]; simpl; [reflexivity|].
  now destruct (f a).
Qed.

(** ** The catalogs *)


Lemma numbered_ok : catalog_ok numbered numbered.
Proof.
  unfold catalog_ok, numbered.
  repeat (apply Forall_cons; [split; [simpl; discriminate | split; reflexivity] | ]).
  apply Forall_nil.
Qed.

Lemma unnumbered_ok : catalog_ok unnumbered unnumbered.
Proof.
  unfold catalog_ok, unnumbered.
  repeat (apply Forall_cons; [split; [simpl; discriminate | split; reflexivity] | ]).
  apply Forall_nil.
Qed.

Lemma catalog_ok_In (d : dict (list string)) (k : string) (files : list string) :
  catalog_ok d d -> In (k, files) d ->
  exists first rest, files = first :: rest /\ index files 0 = Ok first.
Proof.
  intros W I. unfold catalog_ok in W. rewrite Forall_forall in W.
  destruct (W _ I) as (_ & T & _). simpl in T.
  destruct files as [|first rest]; [discriminate|]. now exists first, rest.
Qed.

Lemma numbered_first (k : string) (files : list string) :
  get numbered k = Some files ->
  exists first rest, files = first :: rest /\ index files 0 = Ok first.
Proof. intros G. apply (catalog_ok_In numbered k); [apply numbered_ok | now apply get_In]. Qed.

Lemma unnumbered_sole (k : string) (files : list string) :
  get unnumbered k = Some files ->
  exists sole, files = [sole] /\ index files 0 = Ok sole.
Proof.
  intros G. apply get_In in G.
  assert (A : Forall (fun entry => length (snd entry) = 1) unnumbered)
    by (unfold unnumbered; repeat constructor).
  rewrite Forall_forall in A. specialize (A _ G). simpl in A.
  destruct files as [|sole [|? ?]]; try discriminate. now exists sole.
Qed.

Lemma sentinel_not_key (label : string) :
  is_sentinel label = true ->
  get numbered label = None /\ get unnumbered label = None.
Proof.
  unfold is_sentinel. rewrite !orb_true_iff, !String.eqb_eq.
  intros [[-> | ->] | ->]; split; reflexivity.
Qed.

(** ** [allophone_contains_digit] *)

Lemma contains_digit_strip (label : string) :
  contains_digit label = negb (strip_digits label =? label)%string.
Proof.
  unfold contains_digit, strip_digits.
  destruct (String.eqb_spec (join (filter (fun c => negb (isdigit c)) (chars label))) label)
    as [E | N]; simpl.
  - apply (f_equal chars) in E. rewrite chars_join in E.
    apply filter_fixed in E.
    destruct (existsb isdigit (chars label)) eqn:X; [|reflexivity].
    apply existsb_exists in X. destruct X as (c & I & D).
    rewrite forallb_forall in E. specialize (E c I). now rewrite D in E.
  - destruct (existsb isdigit (chars label)) eqn:X; [reflexivity|].
    exfalso. apply N. rewrite <- (join_chars label) at 2. f_equal.
    apply filter_fixed. apply forallb_forall. intros c I.
    destruct (isdigit c) eqn:D; [|reflexivity].
    assert (Y : existsb isdigit (chars label) = true)
      by (apply existsb_exists; now exists c).
    congruence.
Qed.

Lemma allophone_contains_digit_spec (allophone : string) :
  allophone_contains_digit allophone =
  if contains_digit allophone then [allophone; strip_digits allophone] else [].
Proof.
  rewrite contains_digit_strip. reflexivity.
Qed.

Lemma strip_digits_no_digit (label : string) :
  contains_digit label = false -> strip_digits label = label.
Proof.
  rewrite contains_digit_strip. intros E.
  apply negb_false_iff in E. now apply String.eqb_eq.
Qed.

(** ** [find_closest_match] *)

Lemma closest_loop_find (d todo : dict (list string)) (input_str : string) :
  catalog_ok d todo ->
  closest_loop d (keys todo) input_str =
  Ok (option_map snd (find (fun entry => key_matches input_str (fst entry)) todo)).
Proof.
  induction 1 as [|[k files] todo (NE & _ & G) _ IH]; simpl in *; [reflexivity|].
  destruct input_str as [|a [|a' tail]]; simpl.
  - apply IH.
  - destruct (String.eqb_spec k (String a (String a EmptyString))) as [->|_].
    + unfold getitem. rewrite G. reflexivity.
    + apply IH.
  - destruct k as [|b k']; [congruence|]. simpl.
    destruct (Ascii.eqb a b).
    + unfold getitem. rewrite G. reflexivity.
    + apply IH.
Qed.

Lemma find_closest_match_spec (input_str : string) :
  find_closest_match input_str =
  Ok match closest_entry input_str with
     | Some entry => snd entry
     | None => []
     end.
Proof.
  unfold find_closest_match, closest_entry.
  rewrite (closest_loop_find _ _ _ numbered_ok), (closest_loop_find _ _ _ unnumbered_ok).
  rewrite find_app.
  set (f := fun entry : string * list string => key_matches input_str (fst entry)).
  generalize (find f numbered) (find f unnumbered).
  intros [entry|] [entry'|]; reflexivity.
Qed.

Lemma closest_entry_In (input_str key : string) (files : list string) :
  closest_entry input_str = Some (key, files) ->
  In (key, files) (numbered ++ unnumbered) /\
  exists first rest, files = first :: rest.
Proof.
  unfold closest_entry. intros F. apply find_some in F. destruct F as [I _].
  split; [exact I|].
  apply in_app_or in I. destruct I as [I | I].
  - destruct (catalog_ok_In _ _ _ numbered_ok I) as (f & r & -> & _). eauto.
  - destruct (catalog_ok_In _ _ _ unnumbered_ok I) as (f & r & -> & _). eauto.
Qed.

(** The last two branches of [lookup_allophone]. *)
Lemma fallback_spec (allophone : string) :
  (match_ <- find_closest_match allophone ;;
   if truthy match_ then index match_ 0 else Ok "") =
  Ok match closest_entry allophone with
     | Some (_, first :: _) => first
     | _ => ""
     end.
Proof.
  rewrite find_closest_match_spec. simpl.
  destruct (closest_entry allophone) as [[key [|first rest]]|]; reflexivity.
Qed.

(** ** [lookup_allophone] *)

(** The branches of [lookup_allophone], with every membership test and
    the item access after it read as one lookup. *)
Lemma lookup_allophone_unfold (allophone : string) :
  lookup_allophone allophone =
  let fallback :=
    Ok match closest_entry allophone with
       | Some (_, first :: _) => first
       | _ => ""
       end in
  if is_sentinel allophone then Ok (allophone ++ ".wav")%string else
  match get numbered allophone with
  | Some files => index files 0
  | None =>
  match get unnumbered allophone with
  | Some files => index files 0
  | None =>
      if contains_digit allophone then
        match get numbered (strip_digits allophone) with
        | Some files => index files 0
        | None =>
        match get unnumbered (strip_digits allophone) with
        | Some files => index files 0
        | None => fallback
        end end
      else fallback
  end end.
Proof.
  unfold lookup_allophone, is_sentinel.
  destruct (String.eqb_spec allophone "SPACE") as [->|_]; [reflexivity|].
  destruct (String.eqb_spec allophone "PERIOD") as [->|_]; [reflexivity|].
  destruct (String.eqb_spec allophone "COMMA") as [->|_]; [reflexivity|].
  cbv zeta. cbn [orb].
  unfold contains, getitem.
  destruct (get numbered allophone) as [files|]; [reflexivity|].
  destruct (get unnumbered allophone) as [files|]; [reflexivity|].
  rewrite allophone_contains_digit_spec.
  destruct (contains_digit allophone); cbn [truthy index nth_error bind].
  - destruct (get numbered (strip_digits allophone)) as [files|]; [reflexivity|].
    destruct (get unnumbered (strip_digits allophone)) as [files|]; [reflexivity|].
    apply fallback_spec.
  - apply fallback_spec.
Qed.

(** The resolver raises on no label. *)
Lemma lookup_allophone_total (allophone : string) :
  exists fragment, lookup_allophone allophone = Ok fragment.
Proof.
  rewrite lookup_allophone_unfold. cbv zeta.
  destruct (is_sentinel allophone); [eauto|].
  destruct (get numbered allophone) as [files|] eqn:G1.
  { destruct (numbered_first _ _ G1) as (f & r & _ & ->). eauto. }
  destruct (get unnumbered allophone) as [files|] eqn:G2.
  { destruct (unnumbered_sole _ _ G2) as (f & _ & ->). eauto. }
  destruct (contains_digit allophone); [|eauto].
  destruct (get numbered (strip_digits allophone)) as [files|] eqn:G3.
  { destruct (numbered_first _ _ G3) as (f & r & _ & ->). eauto. }
  destruct (get unnumbered (strip_digits allophone)) as [files|] eqn:G4.
  { destruct (unnumbered_sole _ _ G4) as (f & _ & ->). eauto. }
  eauto.
Qed.

Lemma not_sentinel_key (label : string) (files : list string) :
  get numbered label = Some files \/ get unnumbered label = Some files ->
  is_sentinel label = false.
Proof.
  intros G. destruct (is_sentinel label) eqn:S; [|reflexivity].
  destruct (sentinel_not_key _ S) as [N U]. destruct G; congruence.
Qed.

(** [main] resolves every label without raising. *)
Lemma resolve_total (processed_input : list string) (result_ : list string) :
  exists fragments, resolve processed_input result_ = Ok fragments.
Proof.
  revert result_.
  induction processed_input as [|article rest IH]; intros result_; simpl.
  - now exists result_.
  - destruct (lookup_allophone_total article) as (fragment & ->). cbn [bind].
    destruct (negb (fragment =? "")%string); apply IH.
Qed.

(** C1. Resolving a label that is a key of the multi-variant catalog gives
    the first fragment identifier listed for it; resolving a label that is
    a key of the single-variant catalog, and not of the multi-variant
    catalog, which is consulted first, gives the sole fragment identifier
    of its entry. *)
Theorem lookup_exact_key (label : string) (files : list string) :
  (get numbered label = Some files ->
   exists first rest,
     files = first :: rest /\ lookup_allophone label = Ok first) /\
  (get numbered label = None -> get unnumbered label = Some files ->
   exists sole, files = [sole] /\ lookup_allophone label = Ok sole).
Proof.
  split.
  - intros G. rewrite lookup_allophone_unfold. cbv zeta.
    rewrite (not_sentinel_key label files (or_introl G)), G.
    destruct (numbered_first _ _ G) as (first & rest & E & I).
    exists first, rest. split; assumption.
  - intros N G. rewrite lookup_allophone_unfold. cbv zeta.
    rewrite (not_sentinel_key label files (or_intror G)), N, G.
    destruct (unnumbered_sole _ _ G) as (sole & E & I).
    exists sole. split; assumption.
Qed.

Lemma lookup_exact_key_witness :
  get numbered "KK" = Some ["KK1.wav"; "KK2.wav"; "KK3.wav"]
  /\ lookup_allophone "KK" = Ok "KK1.wav"
  /\ get numbered "GOT" = None
  /\ get unnumbered "GOT" = Some ["GOT.wav"]
  /\ lookup_allophone "GOT" = Ok "GOT.wav".
Proof.
  split; [reflexivity|]. split.
  - destruct (lookup_exact_key "KK" ["KK1.wav"; "KK2.wav"; "KK3.wav"]) as [H _].
    destruct (H eq_refl) as (first & rest & E & L).
    injection E as <- _. exact L.
  - split; [reflexivity|]. split; [reflexivity|].
    destruct (lookup_exact_key "GOT" ["GOT.wav"]) as [_ H].
    destruct (H eq_refl eq_refl) as (sole & E & L).
    injection E as <-. exact L.
Defined.

(** C2. A label that is no sentinel and no key of either catalog but
    holds a digit is stripped of all its digits; when the stripped label
    is a key of the multi-variant catalog the first fragment identifier of
    that entry is returned, and otherwise, when it is a key of the
    single-variant catalog, that entry's identifier. *)
Theorem lookup_digit_label (label : string) :
  is_sentinel label = false ->
  get numbered label = None ->
  get unnumbered label = None ->
  contains_digit label = true ->
  allophone_contains_digit label = [label; strip_digits label]
  /\ chars (strip_digits label)
     = filter (fun c => negb (isdigit c)) (chars label)
  /\ (forall files,
        get numbered (strip_digits label) = Some files ->
        exists first rest,
          files = first :: rest /\ lookup_allophone label = Ok first)
  /\ (forall files,
        get numbered (strip_digits label) = None ->
        get unnumbered (strip_digits label) = Some files ->
        exists sole, files = [sole] /\ lookup_allophone label = Ok sole).
Proof.
  intros S N U D. split; [|split; [|split]].
  - rewrite allophone_contains_digit_spec, D. reflexivity.
  - apply chars_join.
  - intros files G. rewrite lookup_allophone_unfold. cbv zeta.
    rewrite S, N, U, D, G.
    destruct (numbered_first _ _ G) as (first & rest & E & I).
    exists first, rest. split; assumption.
  - intros files N' G. rewrite lookup_allophone_unfold. cbv zeta.
    rewrite S, N, U, D, N', G.
    destruct (unnumbered_sole _ _ G) as (sole & E & I).
    exists sole. split; assumption.
Qed.

Lemma lookup_digit_label_witness :
  lookup_allophone "K2K" = Ok "KK1.wav" /\ lookup_allophone "AY1" = Ok "AY.wav".
Proof.
  split.
  - destruct (lookup_digit_label "K2K" eq_refl eq_refl eq_refl eq_refl)
      as (_ & _ & H & _).
    destruct (H ["KK1.wav"; "KK2.wav"; "KK3.wav"] eq_refl) as (first & rest & E & L).
    injection E as <- _. exact L.
  - destruct (lookup_digit_label "AY1" eq_refl eq_refl eq_refl eq_refl)
      as (_ & _ & _ & H).
    destruct (H ["AY.wav"] eq_refl eq_refl) as (sole & E & L).
    injection E as <-. exact L.
Defined.

(** [find] gives the first element that passes the test. *)
Lemma find_first {A} (f : A -> bool) (l : list A) (x : A) :
  find f l = Some x ->
  exists before after,
    l = before ++ x :: after /\ f x = true
    /\ Forall (fun y => f y = false) before.
Proof.
  induction l as [|a l IH]; simpl; [discriminate|].
  destruct (f a) eqn:Fa.
  - intros [= ->]. exists [], l. auto.
  - intros F. destruct (IH F) as (before & after & -> & Fx & B).
    exists (a :: before), after. auto.
Qed.

Lemma find_none_all {A} (f : A -> bool) (l : list A) :
  find f l = None -> Forall (fun y => f y = false) l.
Proof.
  intros F. apply Forall_forall. intros y I. now apply (find_none f l F).
Qed.

(** The closest entry is the first one that matches, going through the
    multi-variant catalog and then through the single-variant one. *)
Lemma closest_entry_first (input : string) (entry : string * list string) :
  closest_entry input = Some entry ->
  exists before after,
    numbered ++ unnumbered = before ++ entry :: after
    /\ key_matches input (fst entry) = true
    /\ Forall (fun other => key_matches input (fst other) = false) before.
Proof.
  exact (find_first (fun other => key_matches input (fst other)) _ entry).
Qed.

Lemma closest_entry_none (input : string) :
  closest_entry input = None ->
  Forall (fun other => key_matches input (fst other) = false)
         (numbered ++ unnumbered).
Proof.
  exact (find_none_all (fun other => key_matches input (fst other)) _).
Qed.

(** The doubling rule and the first-character rule, by the length of the
    input as [find_closest_match] tests it. *)
Lemma key_matches_length (input key : string) :
  key_matches input key =
  if String.length input =? 1 then (key =? input ++ input)%string
  else if 1 <? String.length input then
    match chars input, chars key with
    | a :: _, b :: _ => Ascii.eqb a b
    | _, _ => false
    end
  else false.
Proof.
  destruct input as [|a [|a' tail]]; try reflexivity.
  destruct key; reflexivity.
Qed.

(** C3. For a label that reaches the closest-match fallback, with or
    without digits and always with its digits kept, the keys of the
    multi-variant catalog and then those of the single-variant catalog are
    gone through in declared order; a one-character label matches the key
    that doubles it and a longer label matches a key with its first
    character. The first fragment identifier of the first matching key is
    returned, and the empty result when no key matches. *)
Theorem lookup_closest_match (label : string) :
  reaches_fallback label = true ->
  match closest_entry label with
  | Some (key, files) =>
      exists first rest,
        files = first :: rest /\ lookup_allophone label = Ok first
  | None => lookup_allophone label = Ok ""
  end.
Proof.
  unfold reaches_fallback. rewrite !andb_true_iff, !negb_true_iff.
  rewrite !contains_false.
  intros ((((S & N) & U) & N') & U').
  rewrite lookup_allophone_unfold. cbv zeta.
  rewrite S, N, U, N', U'.
  destruct (closest_entry label) as [[key files]|] eqn:C.
  - destruct (closest_entry_In _ _ _ C) as (_ & first & rest & ->).
    exists first, rest. split; [reflexivity|].
    now destruct (contains_digit label).
  - now destruct (contains_digit label).
Qed.

Lemma lookup_closest_match_witness :
  reaches_fallback "D" = true /\ lookup_allophone "D" = Ok "DD1.wav"
  /\ reaches_fallback "Z9" = true /\ lookup_allophone "Z9" = Ok "ZH.wav"
  /\ reaches_fallback "hi" = true /\ lookup_allophone "hi" = Ok "".
Proof.
  split; [reflexivity|]. split.
  { destruct (lookup_closest_match "D" eq_refl) as (first & rest & E & L).
    injection E as <- _. exact L. }
  split; [reflexivity|]. split.
  { destruct (lookup_closest_match "Z9" eq_refl) as (first & rest & E & L).
    injection E as <- _. exact L. }
  split; [reflexivity|].
  exact (lookup_closest_match "hi" eq_refl).
Defined.

Lemma first_not_later :
  forallb (fun fragment => negb (existsb (String.eqb fragment) later_variants))
          (sentinel_fragments
           ++ map (fun entry => hd "" (snd entry)) (numbered ++ unnumbered))
  = true.
Proof. vm_compute. reflexivity. Qed.

(** C10. A string returned by the resolver that is not empty is one of
    the three sentinel fragment files or the first fragment listed by some
    entry of one of the two catalogs; it is never a fragment that an entry
    lists after its first one. *)
Theorem lookup_returns_first_variant (label fragment : string) :
  lookup_allophone label = Ok fragment ->
  fragment <> "" ->
  (In fragment sentinel_fragments
   \/ exists key rest, In (key, fragment :: rest) (numbered ++ unnumbered))
  /\ ~ In fragment later_variants.
Proof.
  intros L NE.
  assert (A : In fragment sentinel_fragments
              \/ exists key rest, In (key, fragment :: rest) (numbered ++ unnumbered)).
  { assert (Num : forall key files, get numbered key = Some files ->
                    index files 0 = Ok fragment ->
                    exists key rest, In (key, fragment :: rest) (numbered ++ unnumbered)).
    { intros key files G I. destruct (numbered_first _ _ G) as (f & r & -> & _).
      injection I as ->. exists key, r. apply in_or_app. left. now apply get_In. }
    assert (Unn : forall key files, get unnumbered key = Some files ->
                    index files 0 = Ok fragment ->
                    exists key rest, In (key, fragment :: rest) (numbered ++ unnumbered)).
    { intros key files G I. destruct (unnumbered_sole _ _ G) as (f & -> & _).
      injection I as ->. exists key, []. apply in_or_app. right. now apply get_In. }
    assert (Fb : Ok match closest_entry label with
                    | Some (_, first :: _) => first
                    | _ => ""
                    end = Ok fragment ->
                 exists key rest, In (key, fragment :: rest) (numbered ++ unnumbered)).
    { destruct (closest_entry label) as [[key [|first rest]]|] eqn:C;
        intros [= E]; try congruence.
      subst first. exists key, rest. now apply (closest_entry_In label). }
    rewrite lookup_allophone_unfold in L. cbv zeta in L.
    destruct (is_sentinel label) eqn:S.
    { left. unfold is_sentinel in S. rewrite !orb_true_iff, !String.eqb_eq in S.
      injection L as <-. destruct S as [[-> | ->] | ->]; simpl; auto. }
    right.
    destruct (get numbered label) as [files|] eqn:G1; [now apply (Num label files)|].
    destruct (get unnumbered label) as [files|] eqn:G2; [now apply (Unn label files)|].
    destruct (contains_digit label); [|now apply Fb].
    destruct (get numbered (strip_digits label)) as [files|] eqn:G3;
      [now apply (Num (strip_digits label) files)|].
    destruct (get unnumbered (strip_digits label)) as [files|] eqn:G4;
      [now apply (Unn (strip_digits label) files)|].
    now apply Fb. }
  split; [exact A|].
  pose proof first_not_later as F. rewrite forallb_forall in F.
  assert (I : In fragment
                (sentinel_fragments
                 ++ map (fun entry => hd "" (snd entry)) (numbered ++ unnumbered))).
  { apply in_or_app. destruct A as [A | (key & rest & A)]; [now left|right].
    apply in_map_iff. exists (key, fragment :: rest). split; [reflexivity | exact A]. }
  specialize (F _ I). apply negb_true_iff in F.
  intros Later.
  assert (X : existsb (String.eqb fragment) later_variants = true).
  { apply existsb_exists. exists fragment. split; [exact Later | apply String.eqb_refl]. }
  congruence.
Qed.

Lemma lookup_returns_first_variant_witness :
  lookup_allophone "K" = Ok "KK1.wav"
  /\ "KK1.wav" <> ""
  /\ (In "KK1.wav" sentinel_fragments
      \/ exists key rest, In (key, "KK1.wav" :: rest) (numbered ++ unnumbered))
  /\ ~ In "KK1.wav" later_variants.
Proof.
  assert (L : lookup_allophone "K" = Ok "KK1.wav") by reflexivity.
  assert (NE : "KK1.wav" <> "") by discriminate.
  split; [exact L|]. split; [exact NE|].
  exact (lookup_returns_first_variant "K" "KK1.wav" L NE).
Defined.

(** ** The tokenizer *)

Lemma take_drop (n : nat) (s : string) : (take n s ++ drop n s)%string = s.
Proof.
  revert s. induction n as [|n IH]; intros [|c rest]; simpl; try reflexivity.
  now rewrite IH.
Qed.

Lemma append_empty_r (s : string) : (s ++ "")%string = s.
Proof. induction s as [|c s IH]; simpl; [reflexivity | now rewrite IH]. Qed.

Lemma concat_cons (x : string) (xs : list string) :
  String.concat "" (x :: xs) = (x ++ String.concat "" xs)%string.
Proof.
  destruct xs as [|y ys]; simpl; [now rewrite append_empty_r | reflexivity].
Qed.

(** A pattern that matches at every position loses no character. *)
Lemma findall_concat (p : pattern) (s : string) :
  (forall c rest, p c rest <> None) ->
  String.concat "" (findall p s) = s.
Proof.
  intros T. funelim (findall p s).
  - reflexivity.
  - rewrite concat_cons.
    match goal with IH : _ -> String.concat _ _ = _ |- _ => rewrite (IH T) end.
    simpl. now rewrite take_drop.
  - match goal with E : p ?c ?rest = None |- _ => destruct (T c rest E) end.
Qed.

Lemma re_tokens_total (c : ascii) (rest : string) : re_tokens c rest <> None.
Proof.
  unfold re_tokens, alt, many1, one.
  destruct (is_word c), (is_space c); discriminate.
Qed.

(** C6. Joining the tokens of the tokenizer in order, whatever their
    kind, gives back the input text. *)
Theorem parse_input_concat (input_text : string) :
  String.concat "" (parse_input input_text) = input_text.
Proof.
  unfold parse_input. apply findall_concat. exact re_tokens_total.
Qed.

Lemma run_length_take (f : ascii -> bool) (s : string) :
  forallb f (chars (take (run_length f s) s)) = true.
Proof.
  induction s as [|c s IH]; simpl; [reflexivity|].
  destruct (f c) eqn:Fc; simpl; [|reflexivity].
  now rewrite Fc, IH.
Qed.

(** After a run comes the end of the text or a character outside the
    class: the run is maximal. *)
Lemma run_length_drop (f : ascii -> bool) (s : string) :
  match drop (run_length f s) s with
  | String c _ => f c = false
  | EmptyString => True
  end.
Proof.
  induction s as [|c s IH]; simpl; [exact I|].
  destruct (f c) eqn:Fc; simpl; [exact IH | exact Fc].
Qed.

Lemma In_take (n : nat) (s : string) (c : ascii) :
  In c (chars (take n s)) -> In c (chars s).
Proof.
  revert s. induction n as [|n IH]; intros [|a s]; simpl; try tauto.
  intros [E | I]; [now left | right; now apply IH].
Qed.

Lemma In_drop (n : nat) (s : string) (c : ascii) :
  In c (chars (drop n s)) -> In c (chars s).
Proof.
  revert s. induction n as [|n IH]; intros [|a s]; simpl; try tauto.
  intros I. right. now apply IH.
Qed.

(** A match is made of characters of the text. *)
Lemma findall_chars (p : pattern) (s m : string) (c : ascii) :
  In m (findall p s) -> In c (chars m) -> In c (chars s).
Proof.
  funelim (findall p s); simpl.
  - tauto.
  - intros [<- | I] Ic.
    + simpl in Ic. destruct Ic as [E | Ic]; [now left | right].
      now apply (In_take n).
    + right. apply (In_drop n).
      match goal with IH : _ |- _ => eapply IH; eassumption end.
  - intros I Ic. right.
    match goal with IH : _ |- _ => eapply IH; eassumption end.
Qed.

(** A match of [\w+] is a run of word characters and is not empty. *)
Lemma findall_words_shape (s w : string) :
  In w (findall re_words s) ->
  w <> "" /\ forallb is_word (chars w) = true.
Proof.
  funelim (findall re_words s); simpl.
  - tauto.
  - match goal with E : re_words _ _ = Some _ |- _ =>
      unfold re_words, many1 in E; destruct (is_word c) eqn:Wc; [|discriminate];
      injection E as <-
    end.
    intros [<- | I].
    + split; [discriminate|]. simpl. now rewrite Wc, run_length_take.
    + match goal with IH : _ |- _ => eapply IH; eassumption end.
  - intros I. match goal with IH : _ |- _ => eapply IH; eassumption end.
Qed.


Lemma parse_input_tokens (input_text t : string) :
  In t (parse_input input_text) -> is_token t.
Proof.
  unfold parse_input. funelim (findall re_tokens input_text); simpl.
  - tauto.
  - intros [<- | I].
    + match goal with E : re_tokens _ _ = Some _ |- _ =>
        unfold re_tokens, alt, many1, one in E;
        destruct (is_word c) eqn:Wc; [injection E as <- |];
        [| destruct (is_space c) eqn:Sc; simpl in E; injection E as <-]
      end.
      * left. split; [discriminate|]. simpl. now rewrite Wc, run_length_take.
      * right. left. now exists c.
      * right. right. now exists c.
    + match goal with IH : _ |- _ => eapply IH; eassumption end.
  - match goal with E : re_tokens ?c ?rest = None |- _ =>
      destruct (re_tokens_total c rest E)
    end.
Qed.

(** ** [text_to_allophones] *)

Lemma get_setitem {V} (d : dict V) (k k' : string) (v : V) :
  get (setitem d k v) k' = if (k =? k')%string then Some v else get d k'.
Proof.
  induction d as [|[k0 v0] d IH]; simpl.
  - reflexivity.
  - destruct (String.eqb_spec k0 k) as [->|N]; simpl.
    + now destruct (k =? k')%string.
    + rewrite IH. destruct (String.eqb_spec k k') as [->|N'].
      * apply String.eqb_neq in N. now rewrite N.
      * reflexivity.
Qed.

Section Pronunciation_facts.

Variable cmu_dict : dict (list (list string)).

Lemma get_add_word (d : dict (list string)) (word k : string) :
  get (add_word cmu_dict d word) k =
  if (word =? k)%string then Some (stored_for cmu_dict word) else get d k.
Proof.
  unfold add_word, stored_for.
  destruct (get_default cmu_dict word []); apply get_setitem.
Qed.

Lemma get_fold_add_word (words : list string) (d : dict (list string)) (k : string) :
  get (fold_left (add_word cmu_dict) words d) k =
  if existsb (String.eqb k) words then Some (stored_for cmu_dict k) else get d k.
Proof.
  revert d. induction words as [|w words IH]; intros d; simpl; [reflexivity|].
  rewrite IH, get_add_word, (String.eqb_sym k w).
  destruct (existsb (String.eqb k) words); [now rewrite orb_true_r|].
  rewrite orb_false_r.
  destruct (String.eqb_spec w k) as [->|_]; reflexivity.
Qed.

(** The keys of the mapping are the words found in the lower-cased
    text. *)
Lemma get_text_to_allophones (text k : string) :
  get (text_to_allophones cmu_dict text) k =
  if existsb (String.eqb k) (findall re_words (lower text))
  then Some (stored_for cmu_dict k) else None.
Proof. unfold text_to_allophones. apply get_fold_add_word. Qed.

End Pronunciation_facts.

Lemma existsb_eqb_In (k : string) (l : list string) :
  existsb (String.eqb k) l = true <-> In k l.
Proof.
  rewrite existsb_exists. split.
  - intros (x & I & E). apply String.eqb_eq in E. now subst.
  - intros I. exists k. split; [exact I | apply String.eqb_refl].
Qed.

(** C8. A word of the text that the pronunciation dictionary does not
    have is mapped to the one-element sequence made of the word itself. *)
Theorem unknown_word_kept (cmu_dict : dict (list (list string)))
    (text word : string) :
  In word (findall re_words (lower text)) ->
  get cmu_dict word = None ->
  get (text_to_allophones cmu_dict text) word = Some [word].
Proof.
  intros I A. rewrite get_text_to_allophones.
  apply existsb_eqb_In in I. rewrite I.
  unfold stored_for, get_default. now rewrite A.
Qed.

Lemma unknown_word_kept_witness :
  get (text_to_allophones [("hi", [["HH"; "AY1"]])] "hi xyzzy.") "xyzzy"
  = Some ["xyzzy"].
Proof.
  apply unknown_word_kept.
  - vm_compute. right. left. reflexivity.
  - reflexivity.
Defined.

(** ** [process_punctuation] *)

Lemma process_token_expand (cmu_dict : dict (list (list string)))
    (text : string) (c : list string) (token : string) :
  process_token (text_to_allophones cmu_dict text) c token =
  c ++ expand_token (findall re_words (lower text))
         (text_to_allophones cmu_dict text) token.
Proof.
  unfold process_token, expand_token, get_default.
  rewrite get_text_to_allophones.
  destruct (existsb (String.eqb token) (findall re_words (lower text)));
    [reflexivity|].
  destruct (String.eqb_spec token ",") as [->|_]; [reflexivity|].
  destruct (String.eqb_spec token " ") as [->|_]; [reflexivity|].
  destruct (String.eqb_spec token ".") as [->|_]; [reflexivity|].
  now rewrite app_nil_r.
Qed.

Lemma fold_left_flat_map {A B} (step : list B -> A -> list B)
    (f : A -> list B) (l : list A) (acc : list B) :
  (forall c a, step c a = c ++ f a) ->
  fold_left step l acc = acc ++ flat_map f l.
Proof.
  intros S. revert acc. induction l as [|a l IH]; intros acc; simpl.
  - now rewrite app_nil_r.
  - now rewrite IH, S, <- app_assoc.
Qed.

(** C5. On the tokens of a text and the mapping made from the same
    text, the expander appends token by token and in order: the whole
    label sequence of a token that is a looked-up word, the space sentinel
    for a single space, the period or comma sentinel for a period or a
    comma, and nothing for any other token. *)
Theorem process_punctuation_expands (cmu_dict : dict (list (list string)))
    (text : string) :
  let looked_up := findall re_words (lower text) in
  let mapping := text_to_allophones cmu_dict text in
  process_punctuation (parse_input text) mapping
  = flat_map (expand_token looked_up mapping) (parse_input text).
Proof.
  intros looked_up mapping. unfold process_punctuation.
  rewrite (fold_left_flat_map _ (expand_token looked_up mapping)).
  - reflexivity.
  - intros c token. apply process_token_expand.
Qed.

(** A space, a period and a comma are never looked-up words, so the
    order in which the expander tries its rules does not matter. *)
Lemma punctuation_not_looked_up (s token : string) :
  In token [" "; "."; ","] -> ~ In token (findall re_words s).
Proof.
  intros P I. apply findall_words_shape in I. destruct I as [_ W].
  simpl in P. destruct P as [<- | [<- | [<- | []]]]; discriminate.
Qed.

(** ** Upper-case letters *)

Lemma lower_char_not_upper (c : ascii) : is_ascii_upper (lower_char c) = false.
Proof.
  destruct c as [[] [] [] [] [] [] [] []]; vm_compute; reflexivity.
Qed.

Lemma lower_not_upper (s : string) (c : ascii) :
  In c (chars (lower s)) -> is_ascii_upper c = false.
Proof.
  unfold lower. rewrite chars_join, in_map_iff.
  intros (c' & <- & _). apply lower_char_not_upper.
Qed.

(** No looked-up word has an ASCII upper-case letter. *)
Lemma looked_up_not_upper (text word : string) :
  In word (findall re_words (lower text)) -> has_ascii_upper word = false.
Proof.
  intros I. unfold has_ascii_upper.
  destruct (existsb is_ascii_upper (chars word)) eqn:X; [|reflexivity].
  apply existsb_exists in X. destruct X as (c & Ic & U).
  rewrite (lower_not_upper text c) in U; [discriminate|].
  now apply (findall_chars re_words _ word).
Qed.

Lemma fold_left_filter {A B} (step : B -> A -> B) (keep : A -> bool)
    (l : list A) (acc : B) :
  (forall a, keep a = false -> forall c, step c a = c) ->
  fold_left step l acc = fold_left step (filter keep l) acc.
Proof.
  intros D. revert acc. induction l as [|a l IH]; intros acc; simpl.
  - reflexivity.
  - destruct (keep a) eqn:K; simpl.
    + apply IH.
    + rewrite (D a K). apply IH.
Qed.

Lemma upper_token_skipped (cmu_dict : dict (list (list string)))
    (text token : string) :
  has_ascii_upper token = true ->
  get (text_to_allophones cmu_dict text) token = None
  /\ forall c, process_token (text_to_allophones cmu_dict text) c token = c.
Proof.
  intros U.
  assert (G : get (text_to_allophones cmu_dict text) token = None).
  { rewrite get_text_to_allophones.
    destruct (existsb (String.eqb token) (findall re_words (lower text))) eqn:X;
      [|reflexivity].
    apply existsb_eqb_In, looked_up_not_upper in X. congruence. }
  split; [exact G|].
  intros c. unfold process_token. rewrite G.
  destruct (String.eqb_spec token ",") as [->|_]; [discriminate|].
  destruct (String.eqb_spec token " ") as [->|_]; [discriminate|].
  destruct (String.eqb_spec token ".") as [->|_]; [discriminate|].
  reflexivity.
Qed.

(** C9. A token of the text that holds an ASCII upper-case letter is no
    key of the mapping, whose keys come from the lower-cased text, and the
    expander adds no label for it, whatever the pronunciation dictionary
    has for its lower-cased form: labels and fragments are those of the
    token list without such tokens. *)
Theorem uppercase_token_dropped (cmu_dict : dict (list (list string)))
    (text token : string) :
  In token (parse_input text) ->
  has_ascii_upper token = true ->
  let mapping := text_to_allophones cmu_dict text in
  let others := filter (fun t => negb (has_ascii_upper t)) (parse_input text) in
  get mapping token = None
  /\ (forall c, process_token mapping c token = c)
  /\ process_punctuation (parse_input text) mapping
     = process_punctuation others mapping
  /\ resolve (process_punctuation (parse_input text) mapping) []
     = resolve (process_punctuation others mapping) [].
Proof.
  intros _ U mapping others.
  destruct (upper_token_skipped cmu_dict text token U) as [G P].
  assert (E : process_punctuation (parse_input text) mapping
              = process_punctuation others mapping).
  { unfold process_punctuation, others. apply fold_left_filter.
    intros t K. apply negb_false_iff in K.
    apply (upper_token_skipped cmu_dict text t K). }
  repeat split; try assumption. now rewrite E.
Qed.

Lemma uppercase_token_dropped_witness :
  In "Hi" (parse_input "Hi.")
  /\ has_ascii_upper "Hi" = true
  /\ get [("hi", [["HH"; "AY1"]])] "hi" = Some [["HH"; "AY1"]]
  /\ process_punctuation (parse_input "Hi.")
       (text_to_allophones [("hi", [["HH"; "AY1"]])] "Hi.")
     = ["PERIOD"].
Proof.
  assert (I : In "Hi" (parse_input "Hi.")) by (vm_compute; left; reflexivity).
  assert (U : has_ascii_upper "Hi" = true) by reflexivity.
  split; [exact I|]. split; [exact U|]. split; [reflexivity|].
  destruct (uppercase_token_dropped [("hi", [["HH"; "AY1"]])] "Hi." "Hi" I U)
    as (_ & _ & E & _).
  rewrite E. reflexivity.
Defined.

(** ** [write_wav] *)

Lemma int16_id (x : Z) : is_int16 x -> int16 x = x.
Proof.
  unfold is_int16, int16. intros R.
  rewrite Z.mod_small; lia.
Qed.

Lemma map_int16_id (data : list Z) : Forall is_int16 data -> map int16 data = data.
Proof.
  induction 1 as [|x data R _ IH]; simpl; [reflexivity|].
  now rewrite int16_id, IH.
Qed.

Section Assembler.

Variable cwd : string.
Variable fs : filesystem.

Lemma rate_of_read (wav_file : string) (r : Z) :
  rate_of cwd fs wav_file = Some r ->
  exists data,
    wavfile_read fs (os_path_join (INPUT_WAV_PATH cwd) wav_file) = Ok (r, data).
Proof.
  unfold rate_of.
  destruct (wavfile_read fs _) as [[r' data]|e]; [|discriminate].
  intros [= ->]. now exists data.
Qed.

(** Fragments at the running sample rate are read through. *)
Lemma read_fragments_same_rate (before rest : list string) (r0 : Z)
    (combined_audio : list Z) :
  Forall (fun f => rate_of cwd fs f = Some r0) before ->
  exists combined_audio',
    read_fragments cwd fs (before ++ rest) (Some r0) combined_audio
    = read_fragments cwd fs rest (Some r0) combined_audio'.
Proof.
  intros A. revert combined_audio.
  induction A as [|f before R _ IH]; intros combined_audio; simpl.
  - now exists combined_audio.
  - destruct (rate_of_read f r0 R) as (data & ->). cbn [bind].
    rewrite Z.eqb_refl. cbn [negb]. apply IH.
Qed.

(** A fragment at another rate stops the loop. *)
Lemma read_fragments_mismatch (mismatching : string) (after : list string)
    (r0 r : Z) (combined_audio : list Z) :
  rate_of cwd fs mismatching = Some r -> r <> r0 ->
  read_fragments cwd fs (mismatching :: after) (Some r0) combined_audio
  = Raise rate_error.
Proof.
  intros R N. simpl.
  destruct (rate_of_read mismatching r R) as (data & ->). cbn [bind].
  assert (E : (r0 =? r)%Z = false) by (apply Z.eqb_neq; congruence).
  now rewrite E.
Qed.

(** The loop from its start: it stops at the first fragment whose rate
    is not the rate of the first fragment. *)
Lemma read_fragments_first_mismatch (before : list string)
    (mismatching : string) (after : list string) (r0 r : Z) :
  before <> [] ->
  Forall (fun f => rate_of cwd fs f = Some r0) before ->
  rate_of cwd fs mismatching = Some r ->
  r <> r0 ->
  read_fragments cwd fs (before ++ mismatching :: after) None []
  = Raise rate_error.
Proof.
  intros NE A R N.
  destruct before as [|first before]; [congruence|].
  inversion A as [|? ? R0 A']; subst.
  cbn [app read_fragments].
  destruct (rate_of_read first r0 R0) as (data & ->). cbn [bind].
  destruct (read_fragments_same_rate before (mismatching :: after) r0
              data A') as (combined & ->).
  apply (read_fragments_mismatch mismatching after r0 r combined R N).
Qed.

End Assembler.

(** C7. When the fragments before some fragment all have the sample rate
    of the first one and that fragment has another rate, the assembler
    raises the validation error there, whatever comes after, and the file
    system is left as it was: no output file is written. *)
Theorem write_wav_rate_mismatch (cwd : string) (fs : filesystem)
    (before : list string) (mismatching : string) (after : list string)
    (r0 r : Z) :
  before <> [] ->
  Forall (fun f => rate_of cwd fs f = Some r0) before ->
  rate_of cwd fs mismatching = Some r ->
  r <> r0 ->
  write_wav cwd fs (before ++ mismatching :: after) = (Raise rate_error, fs).
Proof.
  intros NE A R N. unfold write_wav.
  now rewrite (read_fragments_first_mismatch cwd fs before mismatching after
                 r0 r NE A R N).
Qed.

Lemma write_wav_rate_mismatch_witness :
  let fs := [("/sp/modified_wav/HH1.wav", Wav 11025 [1; 2]%Z);
             ("/sp/modified_wav/AY.wav", Wav 11025 [3]%Z);
             ("/sp/modified_wav/TT1.wav", Wav 8000 [4]%Z)] in
  write_wav "/sp" fs ["HH1.wav"; "AY.wav"; "TT1.wav"; "ZZ.wav"]
  = (Raise rate_error, fs).
Proof.
  intros fs.
  apply (write_wav_rate_mismatch "/sp" fs ["HH1.wav"; "AY.wav"] "TT1.wav"
           ["ZZ.wav"] 11025%Z 8000%Z).
  - discriminate.
  - repeat constructor.
  - reflexivity.
  - discriminate.
Defined.

(** The same for a sequence in which every fragment has a sample rate
    and one of these rates differs from the first. *)
Lemma write_wav_some_rate_differs (cwd : string) (fs : filesystem)
    (wav_files : list string) (rates : list Z) :
  map (rate_of cwd fs) wav_files = map Some rates ->
  (exists r, In r rates /\ r <> hd 0%Z rates) ->
  write_wav cwd fs wav_files = (Raise rate_error, fs).
Proof.
  intros M (r & I & N).
  destruct rates as [|r0 rates]; [destruct I|].
  destruct wav_files as [|first wav_files]; [discriminate|].
  simpl in M, N. injection M as R0 M.
  destruct I as [E | I]; [congruence|].
  assert (S : exists before mismatching after r',
             wav_files = before ++ mismatching :: after
             /\ Forall (fun f => rate_of cwd fs f = Some r0) before
             /\ rate_of cwd fs mismatching = Some r' /\ r' <> r0).
  { clear R0 first. revert wav_files M.
    induction rates as [|r1 rates IH]; intros wav_files M; [destruct I|].
    destruct wav_files as [|f wav_files]; [discriminate|].
    simpl in M. injection M as R1 M.
    destruct (Z.eq_dec r1 r0) as [-> | D].
    - destruct I as [E | I]; [congruence|].
      destruct (IH I wav_files M) as (before & m & after & r' & -> & A & R & N').
      exists (f :: before), m, after, r'. repeat split; auto.
    - exists [], f, wav_files, r1. repeat split; auto. }
  destruct S as (before & m & after & r' & -> & A & R & N').
  unfold write_wav.
  change (first :: before ++ m :: after) with ((first :: before) ++ m :: after).
  rewrite (read_fragments_first_mismatch cwd fs (first :: before) m after r0 r').
  - reflexivity.
  - discriminate.
  - now constructor.
  - exact R.
  - exact N'.
Qed.

(** ** The whole pipeline *)

Lemma hi_fragments (cmu_dict : dict (list (list string)))
    (variants : list (list string)) :
  get cmu_dict "hi" = Some (["HH"; "AY1"] :: variants) ->
  text_to_allophones cmu_dict "hi." = [("hi", ["HH"; "AY1"])]
  /\ main_fragments cmu_dict true true true "hi." = Ok ["HH1.wav"; "AY.wav"].
Proof.
  intros H.
  assert (T : text_to_allophones cmu_dict "hi." = [("hi", ["HH"; "AY1"])]).
  { unfold text_to_allophones.
    replace (findall re_words (lower "hi.")) with ["hi"] by (vm_compute; reflexivity).
    cbn [fold_left]. unfold add_word, get_default. rewrite H. reflexivity. }
  split; [exact T|].
  unfold main_fragments. rewrite T.
  replace (parse_input "hi.") with ["hi"; "."] by (vm_compute; reflexivity).
  reflexivity.
Qed.

(** C4. With a pronunciation dictionary that gives the labels HH, AY1 for
    the word hi, and the three ignore flags set, the text hi followed by a
    period yields the fragments HH1.wav and AY.wav, the period fragment
    being removed, and the output file holds the samples of these two
    fragments, in this order, at the sample rate they share. *)
Theorem hi_end_to_end (cmu_dict : dict (list (list string)))
    (variants : list (list string)) (cwd : string) (fs : filesystem)
    (rate : Z) (hh ay : list Z) :
  get cmu_dict "hi" = Some (["HH"; "AY1"] :: variants) ->
  get fs (os_path_join (INPUT_WAV_PATH cwd) "HH1.wav") = Some (Wav rate hh) ->
  get fs (os_path_join (INPUT_WAV_PATH cwd) "AY.wav") = Some (Wav rate ay) ->
  Forall is_int16 hh ->
  Forall is_int16 ay ->
  main_fragments cmu_dict true true true "hi." = Ok ["HH1.wav"; "AY.wav"]
  /\ main cwd cmu_dict true true true fs "hi."
     = (Ok OUTPUT_FILE,
        setitem fs (os_path_join (OUTPUT_WAV_PATH cwd) OUTPUT_FILE)
          (Wav rate (hh ++ ay))).
Proof.
  intros H Hhh Hay Rhh Ray.
  destruct (hi_fragments cmu_dict variants H) as [_ F].
  split; [exact F|].
  unfold main. rewrite F. unfold write_wav.
  cbn [read_fragments]. unfold wavfile_read. rewrite Hhh, Hay.
  cbn [bind app]. rewrite Z.eqb_refl. cbn [negb].
  unfold wavfile_write.
  rewrite map_int16_id; [reflexivity|].
  apply Forall_app. now split.
Qed.

Lemma hi_end_to_end_witness :
  let cmu_dict := [("hi", [["HH"; "AY1"]])] in
  let fs := [("/sp/modified_wav/AY.wav", Wav 11025 [3; -4]%Z);
             ("/sp/modified_wav/HH1.wav", Wav 11025 [1; 2]%Z)] in
  main_fragments cmu_dict true true true "hi." = Ok ["HH1.wav"; "AY.wav"]
  /\ main "/sp" cmu_dict true true true fs "hi."
     = (Ok "output.wav",
        fs ++ [("/sp/output.wav", Wav 11025 [1; 2; 3; -4]%Z)]).
Proof.
  intros cmu_dict fs.
  apply (hi_end_to_end cmu_dict [] "/sp" fs 11025%Z [1; 2]%Z [3; -4]%Z).
  - reflexivity.
  - reflexivity.
  - reflexivity.
  - repeat constructor; unfold is_int16; lia.
  - repeat constructor; unfold is_int16; lia.
Defined.

(** * Further properties *)

(** ** The resolver on labels of any shape *)

Lemma catalog_entries_checked :
  forallb entry_checks (numbered ++ unnumbered) = true.
Proof. vm_compute. reflexivity. Qed.

Lemma key_In (k : string) (files : list string) :
  get numbered k = Some files \/ get unnumbered k = Some files ->
  In (k, files) (numbered ++ unnumbered).
Proof.
  intros [G | G]; apply in_or_app; [left | right]; now apply get_In.
Qed.

(** What [entry_checks] says of an entry and of the file at index 0. *)
Lemma entry_facts (k : string) (files : list string) :
  In (k, files) (numbered ++ unnumbered) ->
  exists b rest more,
    k = String b rest /\ is_ascii_upper b = true /\ isdigit b = false
    /\ contains_digit k = false
    /\ files = String b more :: tl files.
Proof.
  intros I. pose proof catalog_entries_checked as C.
  rewrite forallb_forall in C. specialize (C _ I).
  unfold entry_checks in C. simpl in C.
  destruct k as [|b rest]; [discriminate|].
  destruct files as [|[|f more] others]; try discriminate.
  rewrite !andb_true_iff, !negb_true_iff in C.
  destruct C as (((U & D) & E) & ND). apply Ascii.eqb_eq in E. subst f.
  exists b, rest, more. repeat split; assumption.
Qed.

Lemma has_ascii_upper_initial (b : ascii) (rest : string) :
  is_ascii_upper b = true -> has_ascii_upper (String b rest) = true.
Proof. intros U. unfold has_ascii_upper. simpl. now rewrite U. Qed.

Lemma no_upper_not_key (label : string) :
  has_ascii_upper label = false ->
  get numbered label = None /\ get unnumbered label = None.
Proof.
  intros U.
  assert (A : forall files,
             ~ (get numbered label = Some files \/ get unnumbered label = Some files)).
  { intros files G. apply key_In, entry_facts in G.
    destruct G as (b & rest & more & -> & Ub & _).
    rewrite (has_ascii_upper_initial b rest Ub) in U. discriminate. }
  split.
  - destruct (get numbered label) as [files|]; [|reflexivity].
    destruct (A files). now left.
  - destruct (get unnumbered label) as [files|]; [|reflexivity].
    destruct (A files). now right.
Qed.

Lemma strip_digits_chars (label : string) (c : ascii) :
  In c (chars (strip_digits label)) -> In c (chars label) /\ isdigit c = false.
Proof.
  unfold strip_digits. rewrite chars_join, filter_In, negb_true_iff. tauto.
Qed.

Lemma strip_digits_no_upper (label : string) :
  has_ascii_upper label = false -> has_ascii_upper (strip_digits label) = false.
Proof.
  unfold has_ascii_upper. intros U.
  destruct (existsb is_ascii_upper (chars (strip_digits label))) eqn:X;
    [|reflexivity].
  apply existsb_exists in X. destruct X as (c & I & Uc).
  apply strip_digits_chars in I. destruct I as [I _].
  assert (Y : existsb is_ascii_upper (chars label) = true)
    by (apply existsb_exists; now exists c).
  congruence.
Qed.

(** A key that matches starts with the first character of the input. *)
Lemma key_matches_initial (input key : string) :
  key_matches input key = true ->
  exists a, initial input = Some a /\ initial key = Some a.
Proof.
  destruct input as [|a [|a' tail]]; simpl; [discriminate| |].
  - intros E. apply String.eqb_eq in E. subst key. now exists a.
  - destruct key as [|b key']; [discriminate|].
    intros E. apply Ascii.eqb_eq in E. subst b. now exists a.
Qed.

Lemma closest_entry_facts (input key : string) (files : list string) :
  closest_entry input = Some (key, files) ->
  In (key, files) (numbered ++ unnumbered)
  /\ exists a, initial input = Some a /\ initial key = Some a.
Proof.
  unfold closest_entry. intros F. apply find_some in F.
  destruct F as [I M]. split; [exact I|]. now apply key_matches_initial.
Qed.

Lemma no_upper_no_closest (label : string) :
  has_ascii_upper label = false -> closest_entry label = None.
Proof.
  intros U. destruct (closest_entry label) as [[key files]|] eqn:C; [|reflexivity].
  apply closest_entry_facts in C. destruct C as (I & a & Il & Ik).
  apply entry_facts in I. destruct I as (b & rest & more & -> & Ub & _).
  simpl in Ik. injection Ik as ->.
  destruct label as [|a' tail]; [discriminate|]. simpl in Il. injection Il as ->.
  rewrite (has_ascii_upper_initial a tail Ub) in U. discriminate.
Qed.

Lemma sentinel_facts (label : string) :
  is_sentinel label = true ->
  has_ascii_upper label = true /\ contains_digit label = false.
Proof.
  unfold is_sentinel. rewrite !orb_true_iff, !String.eqb_eq.
  intros [[-> | ->] | ->]; split; reflexivity.
Qed.

Lemma lookup_no_upper (label : string) :
  has_ascii_upper label = false -> lookup_allophone label = Ok "".
Proof.
  intros U. rewrite lookup_allophone_unfold. cbv zeta.
  destruct (is_sentinel label) eqn:S.
  { apply sentinel_facts in S. destruct S as [S _]. congruence. }
  destruct (no_upper_not_key label U) as [-> ->].
  destruct (no_upper_not_key _ (strip_digits_no_upper label U)) as [-> ->].
  rewrite (no_upper_no_closest label U).
  now destruct (contains_digit label).
Qed.

(** X1. A label without any ASCII upper-case letter, such as a word kept
    in lower case because the pronunciation dictionary lacks it, resolves
    to no fragment: [find_closest_match] returns the empty list for it
    and [lookup_allophone] the empty string. *)
Theorem lookup_without_upper_case (label : string) :
  has_ascii_upper label = false ->
  find_closest_match label = Ok [] /\ lookup_allophone label = Ok "".
Proof.
  intros U. split.
  - rewrite find_closest_match_spec. now rewrite (no_upper_no_closest label U).
  - now apply lookup_no_upper.
Qed.

Lemma lookup_without_upper_case_witness :
  has_ascii_upper "a1b2" = false
  /\ find_closest_match "a1b2" = Ok [] /\ lookup_allophone "a1b2" = Ok "".
Proof.
  split; [reflexivity|].
  apply lookup_without_upper_case. reflexivity.
Defined.

(** X2. Digits count for nothing once the label without them is a
    catalog key: the label resolves as the stripped label does, wherever
    its digits stand and however many they are. *)
Theorem lookup_digits_ignored (label : string) :
  contains numbered (strip_digits label)
  || contains unnumbered (strip_digits label) = true ->
  lookup_allophone label = lookup_allophone (strip_digits label).
Proof.
  intros K. destruct (contains_digit label) eqn:D.
  2: { now rewrite (strip_digits_no_digit label D). }
  assert (S : is_sentinel label = false).
  { destruct (is_sentinel label) eqn:S; [|reflexivity].
    apply sentinel_facts in S. destruct S as [_ S]. congruence. }
  assert (A : forall files,
             ~ (get numbered label = Some files \/ get unnumbered label = Some files)).
  { intros files G. apply key_In, entry_facts in G.
    destruct G as (b & rest & more & _ & _ & _ & ND & _). congruence. }
  assert (N : get numbered label = None).
  { destruct (get numbered label) as [files|]; [|reflexivity].
    destruct (A files). now left. }
  assert (U : get unnumbered label = None).
  { destruct (get unnumbered label) as [files|]; [|reflexivity].
    destruct (A files). now right. }
  rewrite (lookup_allophone_unfold label), (lookup_allophone_unfold (strip_digits label)).
  cbv zeta. rewrite S, N, U, D.
  unfold contains in K.
  destruct (get numbered (strip_digits label)) as [files|] eqn:G1.
  { now rewrite (not_sentinel_key _ files (or_introl G1)). }
  destruct (get unnumbered (strip_digits label)) as [files|] eqn:G2.
  { now rewrite (not_sentinel_key _ files (or_intror G2)). }
  discriminate.
Qed.

Lemma lookup_digits_ignored_witness :
  lookup_allophone "1K22K0" = lookup_allophone "KK"
  /\ lookup_allophone "KK" = Ok "KK1.wav".
Proof.
  split; [|reflexivity].
  apply (lookup_digits_ignored "1K22K0"). reflexivity.
Defined.

Lemma strip_digits_initial (a : ascii) (rest : string) :
  isdigit a = false -> initial (strip_digits (String a rest)) = Some a.
Proof. intros D. unfold strip_digits. simpl. now rewrite D. Qed.

(** The file at index 0 of an entry starts as the key does. *)
Lemma hit_initial (k : string) (files : list string) (fragment : string) :
  In (k, files) (numbered ++ unnumbered) ->
  index files 0 = Ok fragment ->
  initial fragment = initial k.
Proof.
  intros I X. apply entry_facts in I.
  destruct I as (b & rest & more & -> & _ & _ & _ & E).
  rewrite E in X. injection X as <-. reflexivity.
Qed.

(** X3. The resolver never changes the initial: a fragment returned for a
    label other than a sentinel starts with the first character of the
    label that is not a digit. *)
Theorem lookup_keeps_initial (label fragment : string) :
  is_sentinel label = false ->
  lookup_allophone label = Ok fragment ->
  fragment <> "" ->
  initial fragment = initial (strip_digits label).
Proof.
  intros S L NE. rewrite lookup_allophone_unfold in L. cbv zeta in L.
  rewrite S in L.
  assert (Exact : forall files,
             get numbered label = Some files \/ get unnumbered label = Some files ->
             index files 0 = Ok fragment ->
             initial fragment = initial (strip_digits label)).
  { intros files G X. apply key_In in G.
    rewrite (hit_initial _ _ _ G X).
    apply entry_facts in G. destruct G as (b & rest & more & _ & _ & _ & ND & _).
    now rewrite (strip_digits_no_digit label ND). }
  assert (Fb : Ok match closest_entry label with
                  | Some (_, first :: _) => first
                  | _ => ""
                  end = Ok fragment ->
               initial fragment = initial (strip_digits label)).
  { destruct (closest_entry label) as [[key [|first rest]]|] eqn:C;
      intros [= E]; try congruence.
    subst first. apply closest_entry_facts in C. destruct C as (I & a & Il & Ik).
    rewrite (hit_initial key (fragment :: rest) fragment I eq_refl), Ik.
    apply entry_facts in I. destruct I as (b & krest & more & -> & _ & D & _).
    simpl in Ik. injection Ik as ->.
    destruct label as [|a' tail]; [discriminate|]. simpl in Il. injection Il as ->.
    now rewrite (strip_digits_initial a tail D). }
  destruct (get numbered label) as [files|] eqn:G1; [now apply (Exact files); [left|]|].
  destruct (get unnumbered label) as [files|] eqn:G2; [now apply (Exact files); [right|]|].
  destruct (contains_digit label); [|now apply Fb].
  destruct (get numbered (strip_digits label)) as [files|] eqn:G3.
  { apply (hit_initial _ files); [apply key_In; now left | exact L]. }
  destruct (get unnumbered (strip_digits label)) as [files|] eqn:G4.
  { apply (hit_initial _ files); [apply key_In; now right | exact L]. }
  now apply Fb.
Qed.

Lemma lookup_keeps_initial_witness :
  lookup_allophone "T4X" = Ok "TT1.wav"
  /\ initial "TT1.wav" = initial (strip_digits "T4X").
Proof.
  assert (L : lookup_allophone "T4X" = Ok "TT1.wav") by reflexivity.
  split; [exact L|].
  apply (lookup_keeps_initial "T4X" "TT1.wav"); [reflexivity | exact L | discriminate].
Defined.

Lemma find_key {V} (d : dict V) (k : string) :
  option_map snd (find (fun entry => (fst entry =? k)%string) d) = get d k.
Proof.
  induction d as [|[k' v] d IH]; simpl; [reflexivity|].
  now destruct (k' =? k)%string.
Qed.

(** X4. For an input of one character [find_closest_match] applies the
    doubling rule alone: it returns the whole file list of the key that
    doubles the character, the multi-variant catalog first, and the empty
    list when no key does, also when keys start with that character. *)
Theorem find_closest_match_single (c : ascii) :
  find_closest_match (String c EmptyString) =
  Ok match get numbered (double c) with
     | Some files => files
     | None => get_default unnumbered (double c) []
     end.
Proof.
  rewrite find_closest_match_spec. unfold closest_entry, get_default.
  rewrite find_app.
  change (fun entry : string * list string =>
            key_matches (String c EmptyString) (fst entry))
    with (fun entry : string * list string => (fst entry =? double c)%string).
  rewrite <- !find_key.
  destruct (find _ numbered) as [entry|]; [reflexivity|].
  destruct (find _ unnumbered) as [entry|]; reflexivity.
Qed.

Lemma length_chars (s : string) : length (chars s) = String.length s.
Proof. induction s as [|c s IH]; simpl; [reflexivity | now rewrite IH]. Qed.

Lemma filter_length_lt {A} (f : A -> bool) (l : list A) :
  existsb (fun a => negb (f a)) l = true -> length (filter f l) < length l.
Proof.
  induction l as [|a l IH]; simpl; [discriminate|].
  pose proof (filter_length_le f l).
  destruct (f a); simpl; [intros X; specialize (IH X) |]; lia.
Qed.

Lemma strip_digits_clean (label : string) :
  contains_digit (strip_digits label) = false.
Proof.
  unfold contains_digit.
  destruct (existsb isdigit (chars (strip_digits label))) eqn:X; [|reflexivity].
  apply existsb_exists in X. destruct X as (c & I & D).
  apply strip_digits_chars in I. destruct I as [_ I]. congruence.
Qed.

(** X5. [allophone_contains_digit] returns the empty list for a name
    without digit and otherwise the name followed by a strictly shorter
    name that holds no digit, on which the function returns the empty
    list. *)
Theorem allophone_contains_digit_result (allophone : string) :
  (contains_digit allophone = false
   /\ allophone_contains_digit allophone = [])
  \/ (contains_digit allophone = true
      /\ allophone_contains_digit allophone = [allophone; strip_digits allophone]
      /\ contains_digit (strip_digits allophone) = false
      /\ allophone_contains_digit (strip_digits allophone) = []
      /\ String.length (strip_digits allophone) < String.length allophone).
Proof.
  rewrite (allophone_contains_digit_spec allophone).
  rewrite (allophone_contains_digit_spec (strip_digits allophone)).
  rewrite strip_digits_clean.
  destruct (contains_digit allophone) eqn:D; [right | left; now split].
  repeat split.
  rewrite <- !length_chars. unfold strip_digits. rewrite chars_join.
  apply filter_length_lt. unfold contains_digit in D. rewrite <- D.
  generalize (chars allophone). intros l.
  induction l as [|c l IH]; simpl; [reflexivity|].
  now rewrite negb_involutive, IH.
Qed.

(** ** The tokenizer and the words of the text *)

Lemma findall_cons (p : pattern) (c : ascii) (rest : string) :
  findall p (String c rest) =
  match p c rest with
  | Some n => String c (take n rest) :: findall p (drop n rest)
  | None => findall p rest
  end.
Proof.
  simp findall. destruct (p c rest); reflexivity.
Qed.

Lemma take_0 (s : string) : take 0 s = EmptyString.
Proof. now destruct s. Qed.

Lemma drop_0 (s : string) : drop 0 s = s.
Proof. now destruct s. Qed.

Lemma re_tokens_word (c : ascii) (rest : string) :
  is_word c = true -> re_tokens c rest = Some (run_length is_word rest).
Proof. intros W. unfold re_tokens, alt, many1. now rewrite W. Qed.

Lemma re_tokens_other (c : ascii) (rest : string) :
  is_word c = false -> re_tokens c rest = Some 0.
Proof.
  intros W. unfold re_tokens, alt, many1, one. rewrite W.
  now destruct (is_space c).
Qed.

Lemma word_token_run (c : ascii) (rest : string) :
  word_token (String c (take (run_length is_word rest) rest)) = is_word c.
Proof.
  unfold word_token. simpl. rewrite run_length_take. now destruct (is_word c).
Qed.

Lemma drop_length (n : nat) (s : string) :
  String.length (drop n s) <= String.length s.
Proof.
  revert n. induction s as [|a r IH]; intros [|n]; simpl; try lia.
  specialize (IH n). lia.
Qed.

(** Induction on texts by their length, as [findall] recurses. *)
Lemma string_length_ind (P : string -> Prop) :
  (forall s, (forall s', String.length s' < String.length s -> P s') -> P s) ->
  forall s, P s.
Proof.
  intros Step s. remember (String.length s) as n eqn:E. revert s E.
  induction n as [n IH] using (well_founded_induction lt_wf).
  intros s ->. apply Step. intros s' L. now apply (IH (String.length s')).
Qed.

(** The word tokens of a text are the matches of [\w+] in it. *)
Lemma filter_word_tokens (s : string) :
  filter word_token (findall re_tokens s) = findall re_words s.
Proof.
  induction s as [s IH] using string_length_ind.
  destruct s as [|c rest]; [reflexivity|].
  rewrite !findall_cons. unfold re_words, many1.
  destruct (is_word c) eqn:W.
  - rewrite (re_tokens_word c rest W). cbn [filter].
    rewrite word_token_run, W. f_equal. apply IH.
    pose proof (drop_length (run_length is_word rest) rest). simpl. lia.
  - rewrite (re_tokens_other c rest W). cbn [filter].
    rewrite take_0, drop_0.
    replace (word_token (String c EmptyString)) with false
      by (unfold word_token; simpl; now rewrite W).
    apply IH. simpl. lia.
Qed.


(** The token at the head of a text that starts outside the word class
    is no word token. *)
Lemma head_token_other (c : ascii) (rest t : string) (ts : list string) :
  is_word c = false ->
  findall re_tokens (String c rest) = t :: ts ->
  word_token t = false.
Proof.
  intros W. rewrite findall_cons, (re_tokens_other c rest W), take_0.
  intros [= <- _]. unfold word_token. simpl. now rewrite W.
Qed.

Lemma findall_adjacent (s : string) (pre : list string) (t1 t2 : string)
    (post : list string) :
  findall re_tokens s = pre ++ t1 :: t2 :: post ->
  word_token t1 = true -> word_token t2 = false.
Proof.
  revert pre t1 t2 post.
  induction s as [s IH] using string_length_ind. intros pre t1 t2 post.
  destruct s as [|c rest].
  { simp findall. now destruct pre. }
  rewrite findall_cons.
  assert (L : forall n, String.length (drop n rest) < String.length (String c rest))
    by (intros n; pose proof (drop_length n rest); simpl; lia).
  destruct (is_word c) eqn:W.
  - rewrite (re_tokens_word c rest W).
    destruct pre as [|t pre].
    + intros [= <- E] _.
      pose proof (run_length_drop is_word rest) as D.
      destruct (drop (run_length is_word rest) rest) as [|c' rest'] eqn:Dr.
      * simp findall in E. discriminate.
      * now apply (head_token_other c' rest' t2 post).
    + intros [= _ E]. exact (IH _ (L _) pre t1 t2 post E).
  - rewrite (re_tokens_other c rest W).
    destruct pre as [|t pre].
    + intros [= <- E] T.
      unfold word_token in T. simpl in T. rewrite W in T. discriminate.
    + intros [= _ E]. exact (IH (drop 0 rest) (L 0) pre t1 t2 post E).
Qed.

(** X7. Word tokens are maximal runs: in the token list of
    [parse_input] a word token is never followed at once by another
    word token. *)
Theorem parse_input_words_apart (input_text : string) (pre : list string)
    (t1 t2 : string) (post : list string) :
  parse_input input_text = pre ++ t1 :: t2 :: post ->
  word_token t1 = true ->
  word_token t2 = false.
Proof. unfold parse_input. apply findall_adjacent. Qed.

Lemma parse_input_words_apart_witness :
  parse_input "ab  cd" = ["ab"] ++ " " :: " " :: ["cd"]
  /\ parse_input "ab  cd" = [] ++ "ab" :: " " :: [" "; "cd"]
  /\ word_token "ab" = true
  /\ word_token " " = false.
Proof.
  assert (E : parse_input "ab  cd" = [] ++ "ab" :: " " :: [" "; "cd"])
    by reflexivity.
  assert (W : word_token "ab" = true) by reflexivity.
  split; [reflexivity|]. split; [exact E|]. split; [exact W|].
  exact (parse_input_words_apart "ab  cd" [] "ab" " " [" "; "cd"] E W).
Defined.

(** X8. Every token of [parse_input] is of one of three kinds: a run of
    word characters that is not empty, one white-space character, or one
    character that is neither; no token is empty. *)
Theorem parse_input_token_kinds (input_text t : string) :
  In t (parse_input input_text) -> is_token t /\ t <> "".
Proof.
  intros I. pose proof (parse_input_tokens input_text t I) as K.
  split; [exact K|].
  destruct K as [[NE _] | [(c & -> & _) | (c & -> & _)]];
    [exact NE | discriminate | discriminate].
Qed.

Lemma parse_input_token_kinds_witness :
  In "," (parse_input "a, b") /\ is_token "," /\ "," <> "".
Proof.
  assert (I : In "," (parse_input "a, b")) by (vm_compute; right; left; reflexivity).
  split; [exact I|].
  exact (parse_input_token_kinds "a, b" "," I).
Defined.

(** ** The mapping of [text_to_allophones] *)

Lemma contains_keys {V} (d : dict V) (k : string) :
  contains d k = existsb (String.eqb k) (keys d).
Proof.
  unfold contains. induction d as [|[k' v] d IH]; simpl; [reflexivity|].
  rewrite (String.eqb_sym k k'). now destruct (k' =? k)%string.
Qed.

Lemma keys_setitem {V} (d : dict V) (k : string) (v : V) :
  keys (setitem d k v) = if contains d k then keys d else keys d ++ [k].
Proof.
  unfold contains. induction d as [|[k' v'] d IH]; simpl; [reflexivity|].
  destruct (String.eqb_spec k' k) as [->|N]; simpl; [reflexivity|].
  rewrite IH. now destruct (get d k).
Qed.

Lemma NoDup_keys_setitem {V} (d : dict V) (k : string) (v : V) :
  NoDup (keys d) -> NoDup (keys (setitem d k v)).
Proof.
  intros N. rewrite keys_setitem. destruct (contains d k) eqn:C; [exact N|].
  rewrite contains_keys in C.
  apply NoDup_app; [exact N | repeat constructor; intros [] |].
  intros x I [E | []]. subst x.
  assert (X : existsb (String.eqb k) (keys d) = true)
    by (apply existsb_eqb_In; exact I).
  congruence.
Qed.

Section Mapping_facts.

Variable cmu_dict : dict (list (list string)).

Lemma keys_add_word (d : dict (list string)) (word : string) :
  keys (add_word cmu_dict d word) =
  if contains d word then keys d else keys d ++ [word].
Proof.
  unfold add_word. destruct (get_default cmu_dict word []); apply keys_setitem.
Qed.

Lemma keys_fold_add_word (words : list string) (d : dict (list string)) :
  keys (fold_left (add_word cmu_dict) words d)
  = keys d ++ first_seen (keys d) words.
Proof.
  revert d. induction words as [|w words IH]; intros d; simpl.
  - now rewrite app_nil_r.
  - rewrite IH, keys_add_word, <- contains_keys.
    destruct (contains d w); [reflexivity|].
    now rewrite <- app_assoc.
Qed.

Lemma NoDup_keys_fold_add_word (words : list string) (d : dict (list string)) :
  NoDup (keys d) -> NoDup (keys (fold_left (add_word cmu_dict) words d)).
Proof.
  revert d. induction words as [|w words IH]; intros d N; simpl; [exact N|].
  apply IH. unfold add_word.
  destruct (get_default cmu_dict w []); now apply NoDup_keys_setitem.
Qed.

Lemma In_keys_text_to_allophones (text k : string) :
  In k (keys (text_to_allophones cmu_dict text))
  <-> In k (findall re_words (lower text)).
Proof.
  rewrite <- existsb_eqb_In, <- contains_keys, contains_true.
  rewrite get_text_to_allophones, <- existsb_eqb_In.
  destruct (existsb (String.eqb k) (findall re_words (lower text))).
  - split; [reflexivity | eauto].
  - split; [intros [v E]; discriminate | discriminate].
Qed.

End Mapping_facts.

(** X9. The keys of the mapping are exactly the words found in the
    lower-cased text, and a word is mapped to the first pronunciation that
    the dictionary lists for it, or to the one-element list of the word
    itself when the dictionary lacks the word or lists no pronunciation
    for it. *)
Theorem text_to_allophones_entries (cmu_dict : dict (list (list string)))
    (text word : string) :
  (In word (keys (text_to_allophones cmu_dict text))
   <-> In word (findall re_words (lower text)))
  /\ (In word (findall re_words (lower text)) ->
      get (text_to_allophones cmu_dict text) word =
      Some match get cmu_dict word with
           | Some (pronunciation :: _) => pronunciation
           | _ => [word]
           end).
Proof.
  split; [apply In_keys_text_to_allophones|].
  intros I. rewrite get_text_to_allophones.
  apply existsb_eqb_In in I. rewrite I.
  unfold stored_for, get_default.
  destruct (get cmu_dict word) as [[|p ps]|]; reflexivity.
Qed.

Lemma text_to_allophones_entries_witness :
  let cmu_dict := [("a", [["AH0"]; ["EY1"]]); ("odd", [])] in
  let mapping := text_to_allophones cmu_dict "A odd zz" in
  get mapping "a" = Some ["AH0"]
  /\ get mapping "odd" = Some ["odd"]
  /\ get mapping "zz" = Some ["zz"].
Proof.
  intros cmu_dict mapping.
  assert (W : findall re_words (lower "A odd zz") = ["a"; "odd"; "zz"])
    by reflexivity.
  split; [|split].
  - apply (proj2 (text_to_allophones_entries cmu_dict "A odd zz" "a")).
    rewrite W. simpl. tauto.
  - apply (proj2 (text_to_allophones_entries cmu_dict "A odd zz" "odd")).
    rewrite W. simpl. tauto.
  - apply (proj2 (text_to_allophones_entries cmu_dict "A odd zz" "zz")).
    rewrite W. simpl. tauto.
Defined.

(** X10. The mapping holds every word once, in the order in which the
    words first occur in the text, however often a word comes back. *)
Theorem text_to_allophones_keys (cmu_dict : dict (list (list string)))
    (text : string) :
  keys (text_to_allophones cmu_dict text)
  = first_seen [] (findall re_words (lower text))
  /\ NoDup (keys (text_to_allophones cmu_dict text)).
Proof.
  unfold text_to_allophones. split.
  - apply (keys_fold_add_word cmu_dict _ []).
  - apply NoDup_keys_fold_add_word. constructor.
Qed.

Lemma lower_char_idempotent (c : ascii) :
  lower_char (lower_char c) = lower_char c.
Proof.
  destruct c as [[] [] [] [] [] [] [] []]; vm_compute; reflexivity.
Qed.

Lemma lower_fixed (s : string) :
  (forall c, In c (chars s) -> lower_char c = c) -> lower s = s.
Proof.
  intros F. unfold lower. rewrite <- (join_chars s) at 2. f_equal.
  induction (chars s) as [|c l IH]; simpl; [reflexivity|].
  rewrite (F c), IH; [reflexivity | | now left].
  intros c' I. apply F. now right.
Qed.

(** X11. Every key of the mapping is a word in lower case: it is not
    empty, it is made of word characters, it holds no ASCII upper-case
    letter and lower-casing leaves it as it is. *)
Theorem text_to_allophones_key_shape (cmu_dict : dict (list (list string)))
    (text k : string) :
  In k (keys (text_to_allophones cmu_dict text)) ->
  word_token k = true /\ has_ascii_upper k = false /\ lower k = k.
Proof.
  intros I. apply In_keys_text_to_allophones in I.
  split; [|split].
  - destruct (findall_words_shape _ _ I) as [NE W].
    unfold word_token. rewrite W. apply String.eqb_neq in NE. now rewrite NE.
  - now apply (looked_up_not_upper text).
  - apply lower_fixed. intros c Ic.
    pose proof (findall_chars re_words _ k c I Ic) as Il.
    unfold lower in Il. rewrite chars_join, in_map_iff in Il.
    destruct Il as (c' & <- & _). apply lower_char_idempotent.
Qed.

Lemma text_to_allophones_key_shape_witness :
  In "ab_1" (keys (text_to_allophones [] "Hi, AB_1!"))
  /\ word_token "ab_1" = true /\ has_ascii_upper "ab_1" = false
  /\ lower "ab_1" = "ab_1".
Proof.
  assert (I : In "ab_1" (keys (text_to_allophones [] "Hi, AB_1!")))
    by (vm_compute; right; left; reflexivity).
  split; [exact I|].
  exact (text_to_allophones_key_shape [] "Hi, AB_1!" "ab_1" I).
Defined.

(** X12. In a text that lower-casing leaves as it is, no word is lost
    between the tokenizer and the mapping: every word token is a key, and
    the expander appends the label sequence stored for it. *)
Theorem lower_case_words_expanded (cmu_dict : dict (list (list string)))
    (text token : string) (c : list string) :
  lower text = text ->
  In token (parse_input text) ->
  word_token token = true ->
  get (text_to_allophones cmu_dict text) token = Some (stored_for cmu_dict token)
  /\ process_token (text_to_allophones cmu_dict text) c token
     = c ++ stored_for cmu_dict token.
Proof.
  intros Lo I W.
  assert (G : get (text_to_allophones cmu_dict text) token
              = Some (stored_for cmu_dict token)).
  { rewrite get_text_to_allophones, Lo, <- filter_word_tokens.
    assert (X : existsb (String.eqb token)
                  (filter word_token (findall re_tokens text)) = true).
    { apply existsb_eqb_In, filter_In. now split. }
    now rewrite X. }
  split; [exact G|]. unfold process_token. now rewrite G.
Qed.

Lemma lower_case_words_expanded_witness :
  process_token (text_to_allophones [("hi", [["HH"; "AY1"]])] "oh hi")
    ["OW1"] "hi"
  = ["OW1"; "HH"; "AY1"].
Proof.
  apply (lower_case_words_expanded [("hi", [["HH"; "AY1"]])] "oh hi" "hi" ["OW1"]).
  - reflexivity.
  - vm_compute. right. right. left. reflexivity.
  - reflexivity.
Defined.

(** ** The expander and the filter *)

Lemma process_token_append (d : dict (list string)) (c : list string)
    (word : string) :
  process_token d c word = c ++ process_token d [] word.
Proof.
  unfold process_token. destruct (get d word) as [labels|]; [reflexivity|].
  destruct (word =? ",")%string; [reflexivity|].
  destruct (word =? " ")%string; [reflexivity|].
  destruct (word =? ".")%string; [reflexivity | now rewrite app_nil_r].
Qed.

(** X13. [process_punctuation] works token by token, for any mapping:
    the labels of two token lists put end to end are the labels of the
    first followed by the labels of the second. *)
Theorem process_punctuation_app (d : dict (list string))
    (tokens tokens' : list string) :
  process_punctuation (tokens ++ tokens') d
  = process_punctuation tokens d ++ process_punctuation tokens' d.
Proof.
  unfold process_punctuation.
  rewrite !(fold_left_flat_map _ (process_token d [])), flat_map_app;
    [reflexivity | | |]; intros c word; apply process_token_append.
Qed.

Lemma filter_filter {A} (f g : A -> bool) (l : list A) :
  filter f (filter g l) = filter (fun a => g a && f a) l.
Proof.
  induction l as [|a l IH]; simpl; [reflexivity|].
  destruct (g a); simpl; [destruct (f a) |]; now rewrite IH.
Qed.

Lemma filter_same {A} (f g : A -> bool) (l : list A) :
  (forall a, f a = g a) -> filter f l = filter g l.
Proof.
  intros E. induction l as [|a l IH]; simpl; [reflexivity|].
  now rewrite E, IH.
Qed.

Lemma keep_unless_filter (flag : bool) (name : string) (items : list string) :
  keep_unless flag name items
  = filter (fun item => negb (flag && (item =? name)%string)) items.
Proof.
  unfold keep_unless. destruct flag; simpl; [reflexivity|].
  induction items as [|a l IH]; simpl; [reflexivity | now rewrite <- IH].
Qed.

Lemma prune_punctuation_filter (spaces periods commas : bool)
    (allophones : list string) :
  prune_punctuation spaces periods commas allophones
  = filter (fun item => negb (ignored spaces periods commas item)) allophones.
Proof.
  unfold prune_punctuation. cbv zeta.
  rewrite !keep_unless_filter, !filter_filter.
  apply filter_same. intros item. unfold ignored.
  destruct (item =? "SPACE.wav")%string, (item =? "PERIOD.wav")%string,
    (item =? "COMMA.wav")%string, spaces, periods, commas; reflexivity.
Qed.

(** X14. Whatever the three flags, [prune_punctuation] keeps the order of
    the fragments and removes exactly the sentinel fragments whose flag is
    set: a fragment is in the result when it is in the input and is not
    ignored, and pruning a second time changes nothing. *)
Theorem prune_punctuation_keeps (spaces periods commas : bool)
    (allophones : list string) :
  prune_punctuation spaces periods commas allophones
  = filter (fun item => negb (ignored spaces periods commas item)) allophones
  /\ (forall item,
        In item (prune_punctuation spaces periods commas allophones)
        <-> In item allophones /\ ignored spaces periods commas item = false)
  /\ prune_punctuation spaces periods commas
       (prune_punctuation spaces periods commas allophones)
     = prune_punctuation spaces periods commas allophones.
Proof.
  split; [apply prune_punctuation_filter|]. split.
  - intros item. rewrite prune_punctuation_filter, filter_In, negb_true_iff.
    reflexivity.
  - rewrite !prune_punctuation_filter, filter_filter.
    apply filter_same. intros item. now destruct (ignored _ _ _ item).
Qed.

(** ** The loop of [main] *)

Lemma resolved_ok (label : string) : lookup_allophone label = Ok (resolved label).
Proof.
  unfold resolved. now destruct (lookup_allophone_total label) as (f & ->).
Qed.

Lemma resolve_from (labels result_ : list string) :
  resolve labels result_
  = Ok (result_
        ++ filter (fun f => negb (f =? "")%string) (map resolved labels)).
Proof.
  revert result_. induction labels as [|label labels IH]; intros result_; simpl.
  - now rewrite app_nil_r.
  - rewrite resolved_ok. cbn [bind].
    destruct (negb (resolved label =? "")%string); rewrite IH; [|reflexivity].
    now rewrite <- app_assoc.
Qed.

(** X15. The loop of [main] never raises. It gives the file names of the
    labels in the order of the labels, leaving out the labels without a
    file: at most one fragment for a label, and never the empty string. *)
Theorem resolve_fragments (labels : list string) :
  exists fragments,
    resolve labels [] = Ok fragments
    /\ fragments = filter (fun f => negb (f =? "")%string) (map resolved labels)
    /\ length fragments <= length labels
    /\ ~ In "" fragments.
Proof.
  exists (filter (fun f => negb (f =? "")%string) (map resolved labels)).
  split; [apply (resolve_from labels [])|]. split; [reflexivity|]. split.
  - rewrite <- (length_map resolved labels). apply filter_length_le.
  - rewrite filter_In. intros [_ E]. discriminate.
Qed.

(** X16. The fragment list of [main] is always produced, no input makes
    the resolution raise, and it is the pruned list of the resolved labels
    also when no flag is set: the test on the flags in [main] changes
    nothing. *)
Theorem main_fragments_pruned (cmu_dict : dict (list (list string)))
    (spaces periods commas : bool) (input_string : string) :
  main_fragments cmu_dict spaces periods commas input_string
  = Ok (prune_punctuation spaces periods commas
          (filter (fun f => negb (f =? "")%string)
             (map resolved
                (process_punctuation (parse_input input_string)
                   (text_to_allophones cmu_dict input_string))))).
Proof.
  unfold main_fragments. cbv zeta. rewrite resolve_from. cbn [bind app].
  destruct spaces, periods, commas; reflexivity.
Qed.

Lemma filter_nothing {A} (f : A -> bool) (l : list A) :
  (forall a, In a l -> f a = false) -> filter f l = [].
Proof.
  induction l as [|a l IH]; simpl; intros F; [reflexivity|].
  rewrite (F a (or_introl eq_refl)). apply IH. intros b I. apply F. now right.
Qed.

(** X17. When the pronunciation dictionary knows none of the words of
    the text, nothing of the text is spoken: with the three flags set, as
    the program sets them, the fragment list of [main] is empty. *)
Theorem unknown_words_give_no_fragment (cmu_dict : dict (list (list string)))
    (text : string) :
  (forall word, In word (findall re_words (lower text)) ->
                get_default cmu_dict word [] = []) ->
  main_fragments cmu_dict true true true text = Ok [].
Proof.
  intros H. unfold main_fragments. cbv zeta. rewrite resolve_from.
  cbn [bind app orb]. f_equal.
  rewrite prune_punctuation_filter, filter_filter.
  apply filter_nothing. intros fragment I.
  apply in_map_iff in I. destruct I as (label & <- & I).
  unfold process_punctuation in I.
  rewrite (fold_left_flat_map _
             (expand_token (findall re_words (lower text))
                (text_to_allophones cmu_dict text))) in I
    by (intros c token; apply process_token_expand).
  cbn [app] in I. apply in_flat_map in I. destruct I as (token & _ & I).
  unfold expand_token in I.
  destruct (existsb (String.eqb token) (findall re_words (lower text))) eqn:X.
  - unfold get_default in I. rewrite get_text_to_allophones, X in I.
    apply existsb_eqb_In in X. unfold stored_for in I. rewrite (H token X) in I.
    destruct I as [<- | []].
    unfold resolved.
    now rewrite (lookup_no_upper token (looked_up_not_upper text token X)).
  - destruct (token =? " ")%string; [destruct I as [<- | []]; reflexivity|].
    destruct (token =? ".")%string; [destruct I as [<- | []]; reflexivity|].
    destruct (token =? ",")%string; [destruct I as [<- | []]; reflexivity|].
    destruct I.
Qed.

Lemma unknown_words_give_no_fragment_witness :
  main_fragments [("hi", [["HH"; "AY1"]]); ("odd", [])] true true true
    "Odd, zz top." = Ok [].
Proof.
  apply unknown_words_give_no_fragment.
  intros word I.
  assert (W : findall re_words (lower "Odd, zz top.") = ["odd"; "zz"; "top"])
    by reflexivity.
  rewrite W in I. simpl in I.
  destruct I as [<- | [<- | [<- | []]]]; reflexivity.
Defined.

(** ** The assembler on readable and on missing fragments *)

Section Assembler_facts.

Variable cwd : string.
Variable fs : filesystem.


Lemma read_fragments_missing (before : list string) (missing : string)
    (after : list string) (r0 : Z) :
  Forall (fun f => rate_of cwd fs f = Some r0) before ->
  get fs (os_path_join (INPUT_WAV_PATH cwd) missing) = None ->
  read_fragments cwd fs (before ++ missing :: after) None []
  = Raise FileNotFoundError.
Proof.
  intros A M.
  assert (Stop : forall rate combined,
             read_fragments cwd fs (missing :: after) rate combined
             = Raise FileNotFoundError).
  { intros rate combined. simpl. unfold wavfile_read. now rewrite M. }
  destruct before as [|first before]; [apply Stop|].
  inversion A as [|? ? R0 A']; subst.
  cbn [app read_fragments].
  destruct (rate_of_read cwd fs first r0 R0) as (data & ->). cbn [bind].
  destruct (read_fragments_same_rate cwd fs before (missing :: after) r0
              data A') as (combined & ->).
  apply Stop.
Qed.

End Assembler_facts.



(** X19. When the fragments before some fragment can be read at one
    sample rate and that fragment is not in the directory of WAV files,
    [write_wav] raises the error of the missing file, whatever comes
    after, and the file system is left as it was. *)
Theorem write_wav_missing_fragment (cwd : string) (fs : filesystem)
    (before : list string) (missing : string) (after : list string)
    (r0 : Z) :
  Forall (fun f => rate_of cwd fs f = Some r0) before ->
  get fs (os_path_join (INPUT_WAV_PATH cwd) missing) = None ->
  write_wav cwd fs (before ++ missing :: after)
  = (Raise FileNotFoundError, fs).
Proof.
  intros A M. unfold write_wav.
  now rewrite (read_fragments_missing cwd fs before missing after r0 A M).
Qed.

Lemma write_wav_missing_fragment_witness :
  let fs := [("/sp/modified_wav/HH1.wav", Wav 11025 [1; 2]%Z);
             ("/sp/modified_wav/TT1.wav", Wav 8000 [4]%Z)] in
  write_wav "/sp" fs ["HH1.wav"; "AY.wav"; "TT1.wav"]
  = (Raise FileNotFoundError, fs).
Proof.
  intros fs.
  apply (write_wav_missing_fragment "/sp" fs ["HH1.wav"] "AY.wav" ["TT1.wav"]
           11025%Z).
  - repeat constructor.
  - reflexivity.
Defined.

(** X20. [write_wav] writes to the output file only: whether it returns
    or raises, every other file of the file system, the fragments among
    them, is afterwards what it was before. *)
Theorem write_wav_other_files (cwd : string) (fs : filesystem)
    (wav_files : list string) (path : string) :
  path <> os_path_join (OUTPUT_WAV_PATH cwd) OUTPUT_FILE ->
  get (snd (write_wav cwd fs wav_files)) path = get fs path.
Proof.
  intros N. unfold write_wav.
  destruct (read_fragments cwd fs wav_files None [])
    as [[sample_rate combined_audio]|e]; [|reflexivity].
  unfold wavfile_write.
  assert (E : (os_path_join (OUTPUT_WAV_PATH cwd) OUTPUT_FILE =? path)%string
              = false) by (apply String.eqb_neq; congruence).
  destruct sample_rate as [r|]; cbn [snd]; now rewrite get_setitem, E.
Qed.

Lemma write_wav_other_files_witness :
  let fs := [("/sp/modified_wav/HH1.wav", Wav 11025 [1; 2]%Z)] in
  get (snd (write_wav "/sp" fs ["HH1.wav"; "HH1.wav"]))
    "/sp/modified_wav/HH1.wav"
  = Some (Wav 11025 [1; 2]%Z).
Proof.
  intros fs.
  apply (write_wav_other_files "/sp" fs ["HH1.wav"; "HH1.wav"]
           "/sp/modified_wav/HH1.wav").
  discriminate.
Defined.
